(** * ChannelSorter2: the balanced partitioner and the position shuffle of [bot.py]

    A shallow embedding of the algorithmic parts of [src/bot.py]:
    - [score], [sum_div], [balance_categories] (with its nested [bal_cat_rec]);
    - the "Shuffle channels around" loop of the [sort] command, which simulates
      on the cached channel objects the position shifts a move causes, and the
      target computation of [reposition_channel];
    - the category and position [make_channel] computes for a new channel;
    - the first half of [sort], which counts the leading letters and saves a
      list of channels for every category, and [sort] as the two halves in
      sequence.

    Calls of the client library (edits, messages) are not part of the model;
    what the code reads from it, [category.channels], is a parameter.

    Python integers are unbounded, so weights, scores and positions are [Z].
    Indices into the weight list are only ever produced by
    [range(i, arr_len)] starting from [i = 0], so they are [nat]. *)

From Stdlib Require Import String.
From Stdlib Require Import List ZArith Lia Arith Bool.
From Stdlib Require Import Sorting.Sorted Sorting.Permutation.
Import ListNotations.
Local Open Scope Z_scope.

(** ** Calls that may raise *)

(** [IndexError] is what indexing an empty or too short list raises;
    [InvalidArgument] is the condition the specification names for a
    rejected partition request. *)
Inductive exception : Type := IndexError | InvalidArgument.

Inductive outcome (A : Type) : Type :=
| Returns (a : A)
| Raises (e : exception).

Arguments Returns {A} a.
Arguments Raises {A} e.

Definition bind {A B : Type} (x : outcome A) (f : A -> outcome B) : outcome B :=
  match x with
  | Returns a => f a
  | Raises e => Raises e
  end.

(** ** Part 1: the balanced partitioner *)

Module Partition.

(** [sys.maxsize] of a 64-bit CPython, the initial value of ["top_score"]. *)
Definition maxsize : Z := 2 ^ 63 - 1.

(** The builtin [sum] over a list of integers. *)
Definition sum (l : list Z) : Z := fold_left Z.add l 0.

(** [score(arr) = sum(e**2 for e in arr)]. *)
Definition score (arr : list Z) : Z := sum (map (fun e => e ^ 2) arr).

(** The slice [arr[i:j]] for non-negative [i] and [j]: empty when [j <= i] or
    when [i] is past the end, cut at the end of [arr] otherwise. *)
Definition slice (arr : list Z) (i j : nat) : list Z :=
  firstn (j - i) (skipn i arr).

(** [sum_div(arr, dividers)]: the sums between dividers. *)
Definition sum_div (arr : list Z) (dividers : list nat) : list Z :=
  let start_indices := 0%nat :: dividers in
  let end_indices := dividers ++ [length arr] in
  map (fun '(i, j) => sum (slice arr i j)) (combine start_indices end_indices).

(** The dictionary [data] that [bal_cat_rec] writes to. *)
Record Data : Type := mkData { best : list nat; top_score : Z }.

(** [range(i, n)]. *)
Definition range (i n : nat) : list nat := seq i (n - i).

Section BalCatRec.

Variable arr : list Z.

(** The [m == 0] branch of [bal_cat_rec]: score the candidate and keep it
    when it is strictly better than the best one so far. *)
Definition consider (cur_indices : list nat) (data : Data) : Data :=
  let new_score := score (sum_div arr cur_indices) in
  if new_score <? top_score data
  then {| best := cur_indices; top_score := new_score |}
  else data.

(** [bal_cat_rec(m, i, cur_indices)], with the dictionary threaded through.
    Every recursive call is made with a larger [i], and the loop body runs
    only for [i < arr_len]: [fuel] bounds the nesting depth, and
    [arr_len - i] is always enough (lemma [bal_cat_rec_fuel] below).  The
    interpreter's own recursion limit is not modelled. *)
Fixpoint bal_cat_rec (fuel : nat) (m : Z) (i : nat) (cur_indices : list nat)
         (data : Data) : Data :=
  if m =? 0 then consider cur_indices data
  else
    match fuel with
    | O => data
    | S fuel' =>
        fold_left
          (fun d j => bal_cat_rec fuel' (m - 1) (j + 1) (cur_indices ++ [j]) d)
          (range i (length arr)) data
    end.

End BalCatRec.

(** [balance_categories(arr, num_cats)]. A tuple repeated a negative number of
    times is empty, hence [Z.to_nat]. *)
Definition balance_categories (arr : list Z) (num_cats : Z) : list nat :=
  let num_divs := num_cats - 1 in
  let data := {| best := repeat 0%nat (Z.to_nat num_divs); top_score := maxsize |} in
  let arr_len := length arr in
  best (bal_cat_rec arr arr_len num_divs 0 [] data).

End Partition.

(** ** Part 2: the position shuffle of [sort] and [reposition_channel] *)

Module Shuffle.

(** The fields of a cached channel object that the code reads or writes. *)
Record Channel : Type :=
  mkChannel { name : string; category_id : Z; position : Z }.

(** The cached channel objects, keyed by channel id.  Lists of channels hold
    ids: two occurrences of one id are the same object, and a write through
    one is seen through the other. *)
Definition store : Type := Z -> Channel.

Definition set_position (c : Z) (p : Z) (st : store) : store :=
  fun c' =>
    if c' =? c
    then {| name := name (st c); category_id := category_id (st c); position := p |}
    else st c'.

Definition set_category_id (c : Z) (cat : Z) (st : store) : store :=
  fun c' =>
    if c' =? c
    then {| name := name (st c); category_id := cat; position := position (st c) |}
    else st c'.

(** "moving channel up": [for other_channel in channels: if new_pos <=
    other_channel.position < old_pos: other_channel.position += 1]. *)
Definition shift_up (new_pos old_pos : Z) (channels : list Z) (st : store) : store :=
  fold_left
    (fun st other_channel =>
       let p := position (st other_channel) in
       if (new_pos <=? p) && (p <? old_pos)
       then set_position other_channel (p + 1) st
       else st)
    channels st.

(** "moving channel down": [for other_channel in channels: if old_pos <
    other_channel.position <= new_pos: other_channel.position -= 1]. *)
Definition shift_down (old_pos new_pos : Z) (channels : list Z) (st : store) : store :=
  fold_left
    (fun st other_channel =>
       let p := position (st other_channel) in
       if (old_pos <? p) && (p <=? new_pos)
       then set_position other_channel (p - 1) st
       else st)
    channels st.

(** The body of [if channel.category_id != category.id or needs_move:], up to
    the assignment of [channel.position]. *)
Definition move_channel (channels : list Z) (channel category new_pos : Z)
           (st : store) : store :=
  let old_pos := position (st channel) in
  let st1 :=
    if old_pos >? new_pos
    then shift_up new_pos old_pos channels st
    else shift_down old_pos new_pos channels st in
  set_position channel new_pos (set_category_id channel category st1).

(** [cat_channels[-1]]. *)
Definition last_channel (cat_channels : list Z) : outcome Z :=
  match rev cat_channels with
  | [] => Raises IndexError
  | c :: _ => Returns c
  end.

(** The choice of [new_pos] and [needs_move]; [nth_error cat_channels i] is
    [Some] exactly when [len(cat_channels) > i]. *)
Definition target (cat_channels : list Z) (i : nat) (channel : Z) (st : store)
  : outcome (Z * bool) :=
  match nth_error cat_channels i with
  | Some target_channel =>
      Returns (position (st target_channel), negb (target_channel =? channel))
  | None =>
      bind (last_channel cat_channels) (fun l =>
      Returns (position (st l) + 1, negb (l =? channel)))
  end.

Section Loop.

(** [category.channels] is a property of the client library, which is not
    part of the repository: it is a parameter here. *)
Variable category_channels : store -> Z -> list Z.

(** [channels]: the channels of all project categories.  One iteration of
    the inner loop for [(i, channel)] in [category]; the position handed to
    [channel.edit] is [category.channels[i].position], read after the
    shifts. *)
Definition shuffle_step (channels : list Z) (category : Z) (i : nat)
           (channel : Z) (st : store) : outcome store :=
  let cat_channels := category_channels st category in
  bind (target cat_channels i channel st) (fun '(new_pos, needs_move) =>
  if negb (category_id (st channel) =? category) || needs_move
  then
    let st' := move_channel channels channel category new_pos st in
    match nth_error (category_channels st' category) i with
    | Some _ => Returns st'
    | None => Raises IndexError
    end
  else Returns st).

(** [for i, channel in enumerate(category_channels[category.id])]. *)
Definition shuffle_category (channels : list Z) (category : Z)
           (wanted : list Z) (st : store) : outcome store :=
  fold_left
    (fun acc '(i, channel) =>
       bind acc (shuffle_step channels category i channel))
    (combine (seq 0 (length wanted)) wanted) (Returns st).

(** [for category in categories], with [wanted] the dictionary
    [category_channels] built by the first half of [sort]. *)
Definition shuffle (channels : list Z) (categories : list Z)
           (wanted : Z -> list Z) (st : store) : outcome store :=
  fold_left
    (fun acc category =>
       bind acc (shuffle_category channels category (wanted category)))
    categories (Returns st).

(** [sorted(..., key=lambda ch: ch.name)]: a stable insertion sort. *)
Fixpoint insert_by_name (st : store) (c : Z) (l : list Z) : list Z :=
  match l with
  | [] => [c]
  | x :: l' =>
      if String.leb (name (st c)) (name (st x))
      then c :: l
      else x :: insert_by_name st c l'
  end.

Definition sorted_by_name (st : store) (l : list Z) : list Z :=
  fold_right (insert_by_name st) [] l.

(** The loop of [reposition_channel] over the sorted other channels, with
    its [else] clause. *)
Fixpoint reposition_scan (st : store) (channel : Z) (channels : list Z)
         (category : option Z) (position0 : Z) : option Z * Z :=
  match channels with
  | [] => (category, position0 + 1)
  | c :: rest =>
      let position1 := position (st c) in
      if String.ltb (name (st channel)) (name (st c))
      then
        (match category with
         | None => Some (category_id (st c))
         | Some _ => category
         end, position1)
      else reposition_scan st channel rest (Some (category_id (st c))) position1
  end.

(** [reposition_channel(channel, project_categories)]: the category and the
    position it hands to [channel.edit]. *)
Definition reposition_channel (channel : Z) (project_categories : list Z)
           (st : store) : option Z * Z :=
  let channels :=
    sorted_by_name st
      (filter (fun ch => negb (ch =? channel))
              (flat_map (category_channels st) project_categories)) in
  reposition_scan st channel channels None 0.

End Loop.

(** Modelled from the spec: the client library's [category.channels], which
    is not in the repository; by the spec's [listItems(container) -> ordered
    sequence of Item], the channels of the guild whose [category_id] is the
    category's, ordered by position (and by id among equal positions). *)
Fixpoint insert_by_position (st : store) (c : Z) (l : list Z) : list Z :=
  match l with
  | [] => [c]
  | x :: l' =>
      if (position (st c) <? position (st x))
         || ((position (st c) =? position (st x)) && (c <=? x))
      then c :: l
      else x :: insert_by_position st c l'
  end.

Definition channels_of (guild_channels : list Z) (st : store) (category : Z)
  : list Z :=
  fold_right (insert_by_position st) []
    (filter (fun c => category_id (st c) =? category) guild_channels).

End Shuffle.

(** ** Part 2b: where [make_channel] puts a new channel *)

Module Creation.

Import Shuffle.

Section MakeChannel.

(** The builtin [str.lower], and the client library's [category.channels]. *)
Variable lower : string -> string.
Variable category_channels : store -> Z -> list Z.

(** [for channel in channels: if channel.name.lower() > name.lower():
    position = channel.position; category = channel.category; break]. *)
Fixpoint make_channel_scan (st : store) (new_name : string) (channels : list Z)
         (position0 category0 : Z) : Z * Z :=
  match channels with
  | [] => (category0, position0)
  | channel :: rest =>
      if String.ltb (lower new_name) (lower (name (st channel)))
      then (category_id (st channel), position (st channel))
      else make_channel_scan st new_name rest position0 category0
  end.

(** The category and the position [make_channel] hands to
    [new_channel.edit]; [categories[-1]] raises on an empty list.
    [categories] holds the categories [get_project_categories] found in the
    guild.  An id of [categories.txt] that names no category any more puts a
    [None] into that list, on which [cat.channels] fails: such lists are not
    covered here. *)
Definition make_channel_target (new_name : string) (categories : list Z)
           (st : store) : outcome (Z * Z) :=
  let channels :=
    sorted_by_name st (flat_map (category_channels st) categories) in
  bind (last_channel categories) (fun last_category =>
  let position0 := Z.of_nat (length (category_channels st last_category)) in
  Returns (make_channel_scan st new_name channels position0 last_category)).

End MakeChannel.

End Creation.

(** ** Part 2c: the first half of [sort], which plans the categories *)

(** As for the channel names, a Python string is a [string] here: a sequence
    of 8-bit characters, compared character by character. *)

Module Planning.

Import Partition Shuffle.

(** The item [l[z]] of a list, with Python's negative indices. *)
Definition index {A : Type} (l : list A) (z : Z) : outcome A :=
  let n := Z.of_nat (length l) in
  let k := if z <? 0 then z + n else z in
  if (0 <=? k) && (k <? n)
  then match nth_error l (Z.to_nat k) with
       | Some x => Returns x
       | None => Raises IndexError
       end
  else Raises IndexError.

(** A bound of a slice, brought into [0, n] as Python does. *)
Definition clamp (n z : Z) : Z :=
  if z <? 0 then Z.max (z + n) 0 else Z.min z n.

(** The slice [l[a:b]] of a list, for any integers [a] and [b]. *)
Definition list_slice {A : Type} (l : list A) (a b : Z) : list A :=
  let n := Z.of_nat (length l) in
  firstn (Z.to_nat (clamp n b - clamp n a)) (skipn (Z.to_nat (clamp n a)) l).

(** [Counter(s)]: one entry per character, in the order of first
    occurrence. *)
Fixpoint count_one (c : Ascii.ascii) (counter : list (Ascii.ascii * Z))
  : list (Ascii.ascii * Z) :=
  match counter with
  | [] => [(c, 1)]
  | (k, v) :: rest =>
      if Ascii.eqb c k then (k, v + 1) :: rest else (k, v) :: count_one c rest
  end.

Definition Counter (s : string) : list (Ascii.ascii * Z) :=
  fold_left (fun counter c => count_one c counter) (list_ascii_of_string s) [].

(** The order of the tuples [(character, count)]. *)
Definition item_le (x y : Ascii.ascii * Z) : bool :=
  Ascii.ltb (fst x) (fst y) || (Ascii.eqb (fst x) (fst y) && (snd x <=? snd y)).

(** [sorted(items)]. *)
Fixpoint insert_item (x : Ascii.ascii * Z) (l : list (Ascii.ascii * Z))
  : list (Ascii.ascii * Z) :=
  match l with
  | [] => [x]
  | y :: l' => if item_le x y then x :: l else y :: insert_item x l'
  end.

Definition sorted_items (l : list (Ascii.ascii * Z)) : list (Ascii.ascii * Z) :=
  fold_right insert_item [] l.

(** [sorted(Counter("".join(letters)).items())]. *)
Definition letter_frequencies (letters : list string) : list (Ascii.ascii * Z) :=
  sorted_items (Counter (String.concat "" letters)).

(** [segment_starts] zipped with [segment_ends]. *)
Definition segments (dividers : list nat) (n : nat) : list (nat * nat) :=
  combine (0%nat :: dividers) (dividers ++ [n]).

(** What one run of the first loop yields: the category, its new name and
    the channels saved for it in [category_channels]. *)
Definition plan_entry : Type := (Z * string * list Z)%type.

Section Sort.

(** The builtin [str.upper]. *)
Variable upper : string -> string.

(** [ch.name[0].upper()]. *)
Definition first_letter (st : store) (ch : Z) : outcome string :=
  match name (st ch) with
  | EmptyString => Raises IndexError
  | String c _ => Returns (upper (String c EmptyString))
  end.

(** [[ch.name[0].upper() for ch in channels]]. *)
Fixpoint letters_of (st : store) (channels : list Z) : outcome (list string) :=
  match channels with
  | [] => Returns []
  | ch :: rest =>
      bind (first_letter st ch) (fun letter =>
      bind (letters_of st rest) (fun letters =>
      Returns (letter :: letters)))
  end.

(** One run of the first loop, for the category of rank [k] and the segment
    of buckets [i, j): the reads of [letters], [categories] and [channels]
    in the order the code makes them.  The rename of the category is a call
    of the client library and is left out. *)
Definition plan_step (counts : list Z) (letters : list string)
           (channels categories : list Z) (k i j : nat) : outcome plan_entry :=
  let start_idx := sum (slice counts 0 i) in
  let end_idx := start_idx + sum (slice counts i j) in
  bind (index letters start_idx) (fun start_letter =>
  bind (index letters (end_idx - 1)) (fun end_letter =>
  bind (index categories (Z.of_nat k)) (fun cat =>
  let new_cat_name :=
    ("Projects " ++ start_letter ++ "-" ++ end_letter)%string in
  bind (index channels start_idx) (fun _ =>
  bind (index channels (end_idx - 1)) (fun _ =>
  Returns (cat, new_cat_name, list_slice channels start_idx end_idx)))))).

(** [for k, (i, j) in enumerate(zip(segment_starts, segment_ends))], from
    rank [k] on. *)
Fixpoint plan_loop (counts : list Z) (letters : list string)
         (channels categories : list Z) (k : nat) (segs : list (nat * nat))
  : outcome (list plan_entry) :=
  match segs with
  | [] => Returns []
  | (i, j) :: rest =>
      bind (plan_step counts letters channels categories k i j) (fun entry =>
      bind (plan_loop counts letters channels categories (S k) rest)
           (fun entries => Returns (entry :: entries)))
  end.

(** The first half of [sort], from the sorted [channels] on. *)
Definition plan (st : store) (categories channels : list Z)
  : outcome (list plan_entry) :=
  bind (letters_of st channels) (fun letters =>
  let letter_frequencies := letter_frequencies letters in
  let counts := map snd letter_frequencies in
  let dividers := balance_categories counts (Z.of_nat (length categories)) in
  let segment_starts_ends := segments dividers (length counts) in
  plan_loop counts letters channels categories 0 segment_starts_ends).

(** The dictionary [category_channels] after the loop: the last entry of a
    category is the one that stays. *)
Definition saved (entries : list plan_entry) (cat : Z) : list Z :=
  fold_left
    (fun found '(c, _, channels) => if c =? cat then channels else found)
    entries [].

Section Command.

Variable category_channels : store -> Z -> list Z.

(** [sort]: plan, then shuffle. *)
Definition sort_command (categories : list Z) (st : store) : outcome store :=
  let channels :=
    sorted_by_name st (flat_map (category_channels st) categories) in
  bind (plan st categories channels) (fun entries =>
  shuffle category_channels channels categories (saved entries) st).

End Command.

End Sort.

End Planning.

Import Partition Shuffle Creation Planning.

(** ** Part 3: the notions the properties are stated with *)

(** The cost of a boundary set: the sum of the squares of the segment sums,
    as [bal_cat_rec] computes it. *)
Definition cost (arr : list Z) (B : list nat) : Z := score (sum_div arr B).

(** A boundary set for [num_cats] groups over [n] buckets: [num_cats - 1]
    strictly increasing indices drawn from [0, n]. *)
Definition boundary_set (n : nat) (num_cats : Z) (B : list nat) : Prop :=
  Z.of_nat (length B) = num_cats - 1 /\
  StronglySorted Nat.lt B /\
  Forall (fun b => (b <= n)%nat) B.

(** The boundary sets the search visits: drawn from [0, n - 1]. *)
Definition visited_set (n : nat) (num_cats : Z) (B : list nat) : Prop :=
  Z.of_nat (length B) = num_cats - 1 /\
  StronglySorted Nat.lt B /\
  Forall (fun b => (b < n)%nat) B.

(** Lexicographic order on index lists (the order of Python tuples). *)
Inductive lex_lt : list nat -> list nat -> Prop :=
| lex_lt_nil : forall y l, lex_lt [] (y :: l)
| lex_lt_head : forall x y l1 l2, (x < y)%nat -> lex_lt (x :: l1) (y :: l2)
| lex_lt_tail : forall x l1 l2, lex_lt l1 l2 -> lex_lt (x :: l1) (x :: l2).

(** [chain lo t hi]: [t] is strictly increasing within [lo, hi). *)
Fixpoint chain (lo : nat) (t : list nat) (hi : nat) : Prop :=
  match t with
  | [] => True
  | x :: t' => (lo <= x < hi)%nat /\ chain (S x) t' hi
  end.

(** The index tuples that reach the [m == 0] branch from a call
    [bal_cat_rec(m, i, _)], in the order of the calls. *)
Fixpoint combos (m : nat) (i n : nat) : list (list nat) :=
  match m with
  | O => [[]]
  | S m' => flat_map (fun j => map (cons j) (combos m' (j + 1) n)) (range i n)
  end.

Definition candidates (m : Z) (i n : nat) : list (list nat) :=
  if m <? 0 then [] else combos (Z.to_nat m) i n.

(** The segment sums of [arr[s:]] cut at [D]; [sum_div] is the case [s = 0]. *)
Definition seg_sums (arr : list Z) (s : nat) (D : list nat) : list Z :=
  map (fun '(i, j) => sum (slice arr i j)) (combine (s :: D) (D ++ [length arr])).

(** What a caller of [balance_categories] observes: the function has no
    [raise] statement and no operation that can fail on a list of integers. *)
Definition call_balance_categories (arr : list Z) (num_cats : Z)
  : outcome (list nat) :=
  Returns (balance_categories arr num_cats).

(** The positions of the channels of the shared ordinal space, in list order. *)
Definition positions (channels : list Z) (st : store) : list Z :=
  map (fun c => position (st c)) channels.

(** The positions form a contiguous, duplicate-free range [0 .. n-1]. *)
Definition dense (channels : list Z) (st : store) : Prop :=
  NoDup (positions channels st) /\
  forall k, In k (positions channels st) <-> 0 <= k < Z.of_nat (length channels).

Definition positions_after (channels : list Z) (o : outcome store)
  : option (list Z) :=
  match o with
  | Returns st => Some (positions channels st)
  | Raises _ => None
  end.

(** Where a move from [old_pos] to [new_pos] sends the channel at position
    [p]: the moved channel to [new_pos], the channels in between one slot up
    or down, every other one nowhere. *)
Definition moved (old_pos new_pos p : Z) : Z :=
  if p =? old_pos then new_pos
  else if old_pos >? new_pos
       then (if (new_pos <=? p) && (p <? old_pos) then p + 1 else p)
       else (if (old_pos <? p) && (p <=? new_pos) then p - 1 else p).

(** The before-state of the end-to-end scenario: four channels of one
    category (id 100), with ids 1 to 4. *)
Definition fruit : store :=
  fun c =>
    if c =? 1 then mkChannel "Apple" 100 0
    else if c =? 2 then mkChannel "Banana" 100 1
    else if c =? 3 then mkChannel "Cherry" 100 2
    else mkChannel "Date" 100 3.

(** A state of two categories (ids 100 and 200): [a] and [z] in the first,
    [m] in the second. *)
Definition two_categories : store :=
  fun c =>
    if c =? 1 then mkChannel "a" 100 0
    else if c =? 2 then mkChannel "z" 100 1
    else mkChannel "m" 200 2.

(** The inner loop of the shuffle from any outcome on, for any list of ranks
    and channels; [shuffle_category] is the case of [enumerate(wanted)]
    started from a store. *)
Definition run_steps (category_channels : store -> Z -> list Z)
           (channels : list Z) (category : Z) (l : list (nat * Z))
           (o : outcome store) : outcome store :=
  fold_left
    (fun acc '(i, channel) =>
       bind acc (shuffle_step category_channels channels category i channel))
    l o.

(** The outer loop of the shuffle from any outcome on. *)
Definition run_categories (category_channels : store -> Z -> list Z)
           (channels : list Z) (wanted : Z -> list Z) (categories : list Z)
           (o : outcome store) : outcome store :=
  fold_left
    (fun acc category =>
       bind acc (shuffle_category category_channels channels category
                                  (wanted category)))
    categories o.

(** The channels [reposition_channel] sorts and scans: those of the project
    categories, without the channel itself. *)
Definition other_channels (category_channels : store -> Z -> list Z)
           (channel : Z) (project_categories : list Z) (st : store) : list Z :=
  filter (fun ch => negb (ch =? channel))
         (flat_map (category_channels st) project_categories).

(** [c.name > channel.name]. *)
Definition name_after (st : store) (channel c : Z) : bool :=
  String.ltb (name (st channel)) (name (st c)).

(** [a.name <= b.name]. *)
Definition name_le (st : store) (a b : Z) : Prop :=
  String.leb (name (st a)) (name (st b)) = true.

(** [channel.name.lower() > name.lower()]. *)
Definition lower_after (lower : string -> string) (st : store)
           (new_name : string) (c : Z) : bool :=
  String.ltb (lower new_name) (lower (name (st c))).

(** The order of two entries of the letter frequencies by their character. *)
Definition key_lt (x y : Ascii.ascii * Z) : Prop :=
  Ascii.ltb (fst x) (fst y) = true.

(** ** Part 4: facts about the partitioner *)

Section SumFacts.

Lemma fold_add_shift (l : list Z) (a : Z) : fold_left Z.add l a = a + sum l.
Proof.
  unfold sum. revert a.
  induction l as [|x l IH]; intros a; simpl.
  - lia.
  - rewrite IH, (IH x). lia.
Qed.

Lemma sum_cons (x : Z) (l : list Z) : sum (x :: l) = x + sum l.
Proof. unfold sum at 1. simpl. apply fold_add_shift. Qed.

Lemma sum_nil : sum [] = 0.
Proof. reflexivity. Qed.

Lemma sum_app (l1 l2 : list Z) : sum (l1 ++ l2) = sum l1 + sum l2.
Proof.
  induction l1 as [|x l1 IH].
  - change (sum ([] ++ l2)) with (sum l2). rewrite sum_nil. lia.
  - change (sum ((x :: l1) ++ l2)) with (sum (x :: l1 ++ l2)).
    rewrite !sum_cons, IH. lia.
Qed.

Lemma sum_nonneg (l : list Z) : Forall (fun w => 0 <= w) l -> 0 <= sum l.
Proof.
  induction 1 as [|x l Hx _ IH].
  - rewrite sum_nil. lia.
  - rewrite sum_cons. lia.
Qed.

Lemma score_cons (x : Z) (l : list Z) : score (x :: l) = x ^ 2 + score l.
Proof. unfold score. simpl. apply sum_cons. Qed.

Lemma score_nil : score [] = 0.
Proof. reflexivity. Qed.

Lemma score_nonneg (l : list Z) : 0 <= score l.
Proof.
  induction l as [|x l IH].
  - rewrite score_nil. lia.
  - rewrite score_cons. nia.
Qed.

End SumFacts.

Section SliceFacts.

Variable arr : list Z.

Lemma firstn_plus (a b : nat) (l : list Z) :
  firstn (a + b) l = firstn a l ++ firstn b (skipn a l).
Proof.
  revert l. induction a as [|a IH]; intros l; simpl.
  - reflexivity.
  - destruct l as [|x l]; simpl.
    + now rewrite firstn_nil.
    + now rewrite IH.
Qed.

Lemma slice_split (s c e : nat) :
  (s <= c <= e)%nat -> slice arr s e = slice arr s c ++ slice arr c e.
Proof.
  intros H. unfold slice.
  replace (e - s)%nat with ((c - s) + (e - c))%nat by lia.
  rewrite firstn_plus, skipn_skipn.
  replace (c - s + s)%nat with c by lia.
  reflexivity.
Qed.

Lemma slice_empty (i : nat) : slice arr i i = [].
Proof. unfold slice. now rewrite Nat.sub_diag. Qed.

Lemma slice_length (i : nat) :
  length (slice arr i (length arr)) = (length arr - i)%nat.
Proof. unfold slice. rewrite length_firstn, length_skipn. lia. Qed.

Lemma in_firstn (k : nat) (l : list Z) (w : Z) : In w (firstn k l) -> In w l.
Proof.
  revert l. induction k as [|k IH]; intros [|x l]; simpl; try tauto.
  intros [->|H]; auto.
Qed.

Lemma in_skipn (k : nat) (l : list Z) (w : Z) : In w (skipn k l) -> In w l.
Proof.
  revert l. induction k as [|k IH]; intros [|x l]; simpl; try tauto.
  intros H. right. now apply IH.
Qed.

Lemma slice_nonneg (i j : nat) :
  Forall (fun w => 0 <= w) arr -> 0 <= sum (slice arr i j).
Proof.
  intros H. apply sum_nonneg. rewrite Forall_forall in *.
  intros w Hw. apply H. unfold slice in Hw.
  eapply in_skipn, in_firstn, Hw.
Qed.

End SliceFacts.

(** *** The search visits the tuples of [combos], in order *)

Section FoldFacts.

Context {A B : Type}.

Lemma fold_left_ext_in (f g : A -> B -> A) (l : list B) (a : A) :
  (forall x a', In x l -> f a' x = g a' x) ->
  fold_left f l a = fold_left g l a.
Proof.
  revert a. induction l as [|x l IH]; intros a H; simpl.
  - reflexivity.
  - rewrite (H x a) by (left; reflexivity).
    apply IH. intros y a' Hy. apply H. now right.
Qed.

Lemma fold_left_fixed (f : A -> B -> A) (l : list B) (a : A) :
  (forall x a', In x l -> f a' x = a') -> fold_left f l a = a.
Proof.
  revert a. induction l as [|x l IH]; intros a H; simpl.
  - reflexivity.
  - rewrite (H x a) by (left; reflexivity).
    apply IH. intros y a' Hy. apply H. now right.
Qed.

Lemma fold_left_flat_map {C : Type} (f : A -> B -> A) (g : C -> list B)
      (l : list C) (a : A) :
  fold_left f (flat_map g l) a =
  fold_left (fun a' x => fold_left f (g x) a') l a.
Proof.
  revert a. induction l as [|x l IH]; intros a; simpl.
  - reflexivity.
  - now rewrite fold_left_app, IH.
Qed.

Lemma fold_left_map {C : Type} (f : A -> B -> A) (g : C -> B)
      (l : list C) (a : A) :
  fold_left f (map g l) a = fold_left (fun a' x => f a' (g x)) l a.
Proof.
  revert a. induction l as [|x l IH]; intros a; simpl; auto.
Qed.

End FoldFacts.

Section SearchFacts.

Variable arr : list Z.

Lemma range_empty (i n : nat) : (n <= i)%nat -> range i n = [].
Proof. intros H. unfold range. now replace (n - i)%nat with O by lia. Qed.

Lemma in_range (i n j : nat) : In j (range i n) <-> (i <= j < n)%nat.
Proof. unfold range. rewrite in_seq. lia. Qed.

(** With a negative [m] the recursion never reaches [m == 0]: the
    dictionary is left as it is. *)
Lemma bal_cat_rec_negative (fuel : nat) (m : Z) (i : nat)
      (cur : list nat) (d : Data) :
  m < 0 -> bal_cat_rec arr fuel m i cur d = d.
Proof.
  revert m i cur d. induction fuel as [|fuel IH]; intros m i cur d Hm; simpl.
  - destruct (Z.eqb_spec m 0); [lia | reflexivity].
  - destruct (Z.eqb_spec m 0); [lia |].
    apply fold_left_fixed. intros j d' _. apply IH. lia.
Qed.

(** For [m >= 0] the calls that reach [m == 0] are those of [combos]. *)
Lemma bal_cat_rec_combos (m : nat) :
  forall (fuel i : nat) (cur : list nat) (d : Data),
    (length arr - i <= fuel)%nat ->
    bal_cat_rec arr fuel (Z.of_nat m) i cur d =
    fold_left (fun d' t => consider arr (cur ++ t) d')
              (combos m i (length arr)) d.
Proof.
  induction m as [|m IH]; intros fuel i cur d Hfuel.
  - destruct fuel; simpl; now rewrite app_nil_r.
  - assert (Hm : (Z.of_nat (S m) =? 0) = false) by (apply Z.eqb_neq; lia).
    destruct fuel as [|fuel]; cbn [bal_cat_rec]; rewrite Hm.
    + cbn [combos]. rewrite range_empty by lia. reflexivity.
    + cbn [combos]. rewrite fold_left_flat_map.
      apply fold_left_ext_in. intros j d' Hj.
      apply in_range in Hj.
      replace (Z.of_nat (S m) - 1) with (Z.of_nat m) by lia.
      rewrite IH by lia. rewrite fold_left_map.
      apply fold_left_ext_in. intros t d'' _.
      now rewrite <- app_assoc.
Qed.

Lemma bal_cat_rec_candidates (fuel : nat) (m : Z) (i : nat)
      (cur : list nat) (d : Data) :
  (length arr - i <= fuel)%nat ->
  bal_cat_rec arr fuel m i cur d =
  fold_left (fun d' t => consider arr (cur ++ t) d')
            (candidates m i (length arr)) d.
Proof.
  intros Hfuel. unfold candidates.
  destruct (Z.ltb_spec m 0) as [Hm|Hm].
  - now rewrite bal_cat_rec_negative.
  - rewrite <- (Z2Nat.id m) at 1 by lia. now apply bal_cat_rec_combos.
Qed.

(** Fuel adequacy: any fuel of at least [arr_len - i] gives the same
    result, so the [O] branch of the model is never what decides it. *)
Lemma bal_cat_rec_fuel (fuel1 fuel2 : nat) (m : Z) (i : nat)
      (cur : list nat) (d : Data) :
  (length arr - i <= fuel1)%nat -> (length arr - i <= fuel2)%nat ->
  bal_cat_rec arr fuel1 m i cur d = bal_cat_rec arr fuel2 m i cur d.
Proof.
  intros H1 H2. now rewrite !bal_cat_rec_candidates.
Qed.

Lemma consider_better (t : list nat) (d : Data) :
  cost arr t < top_score d ->
  consider arr t d = {| best := t; top_score := cost arr t |}.
Proof.
  intros H. unfold consider. fold (cost arr t).
  destruct (Z.ltb_spec (cost arr t) (top_score d)); [reflexivity | lia].
Qed.

Lemma consider_worse (t : list nat) (d : Data) :
  top_score d <= cost arr t -> consider arr t d = d.
Proof.
  intros H. unfold consider. fold (cost arr t).
  destruct (Z.ltb_spec (cost arr t) (top_score d)); [lia | reflexivity].
Qed.

(** Keeping the first strict improvement: the outcome of scoring a list of
    candidates one after the other. *)
Lemma fold_consider (L : list (list nat)) :
  forall d0 : Data,
    let d := fold_left (fun d' t => consider arr t d') L d0 in
    (d = d0 /\ Forall (fun t => top_score d0 <= cost arr t) L) \/
    (exists l1 t l2,
        L = l1 ++ t :: l2 /\
        d = {| best := t; top_score := cost arr t |} /\
        cost arr t < top_score d0 /\
        Forall (fun u => cost arr t < cost arr u) l1 /\
        Forall (fun u => cost arr t <= cost arr u) l2).
Proof.
  induction L as [|x L IH]; intros d0; simpl.
  - left. split; [reflexivity | constructor].
  - specialize (IH (consider arr x d0)). simpl in IH.
    destruct (Z.ltb_spec (cost arr x) (top_score d0)) as [Hlt|Hge].
    + rewrite (consider_better x d0 Hlt) in *. simpl in IH.
      destruct IH as [[Hd Hall]|(l1 & t & l2 & HL & Hd & Hc & H1 & H2)].
      * right. exists [], x, L. simpl. repeat split; auto.
      * right. exists (x :: l1), t, l2. subst L. simpl.
        repeat split; auto; try lia; try (constructor; [lia | assumption]).
    + rewrite (consider_worse x d0 Hge) in *.
      destruct IH as [[Hd Hall]|(l1 & t & l2 & HL & Hd & Hc & H1 & H2)].
      * left. split; auto.
      * right. exists (x :: l1), t, l2. subst L. simpl.
        repeat split; auto; try lia; try (constructor; [lia | assumption]).
Qed.

End SearchFacts.

(** *** The visited tuples: which they are, and in which order *)

Section CombosFacts.

Lemma chain_sorted (t : list nat) :
  forall lo hi,
    chain lo t hi <->
    StronglySorted Nat.lt t /\ Forall (fun x => (lo <= x < hi)%nat) t.
Proof.
  induction t as [|x t IH]; intros lo hi; simpl.
  - split; [intros _; split; constructor | trivial].
  - rewrite IH. split.
    + intros (Hx & Hs & Hall). split.
      * constructor; [assumption |].
        eapply Forall_impl; [| exact Hall]. simpl. unfold Nat.lt. lia.
      * constructor; [assumption |].
        eapply Forall_impl; [| exact Hall]. simpl. lia.
    + intros (Hs & Hall).
      apply StronglySorted_inv in Hs. destruct Hs as [Hs Hlt].
      inversion Hall as [|? ? Hx Hall']; subst.
      repeat split; try lia; try assumption.
      rewrite Forall_forall in *. intros y Hy.
      specialize (Hlt y Hy). specialize (Hall' y Hy).
      unfold Nat.lt in Hlt. lia.
Qed.

Lemma chain_weaken (t : list nat) (lo lo' hi hi' : nat) :
  (lo' <= lo)%nat -> (hi <= hi')%nat -> chain lo t hi -> chain lo' t hi'.
Proof.
  intros Hlo Hhi. rewrite !chain_sorted. intros [Hs Hall]. split; auto.
  eapply Forall_impl; [| exact Hall]. simpl. lia.
Qed.

Lemma in_combos (m : nat) :
  forall (i n : nat) (t : list nat),
    In t (combos m i n) <-> length t = m /\ chain i t n.
Proof.
  induction m as [|m IH]; intros i n t; simpl.
  - split.
    + intros [<-|[]]. simpl. auto.
    + intros [Hlen _]. left. destruct t; [reflexivity | discriminate].
  - rewrite in_flat_map. split.
    + intros (j & Hj & Ht). apply in_range in Hj.
      apply in_map_iff in Ht. destruct Ht as (t' & <- & Ht').
      apply IH in Ht'. destruct Ht' as [Hlen Hch].
      rewrite Nat.add_1_r in Hch. simpl. auto.
    + intros [Hlen Hch]. destruct t as [|j t']; [discriminate |].
      simpl in *. destruct Hch as [Hj Hch].
      exists j. split; [now apply in_range |].
      apply in_map. apply IH. rewrite Nat.add_1_r. split; [lia | assumption].
Qed.

Lemma sorted_app (R : list nat -> list nat -> Prop) (l1 l2 : list (list nat)) :
  StronglySorted R l1 -> StronglySorted R l2 ->
  (forall x y, In x l1 -> In y l2 -> R x y) ->
  StronglySorted R (l1 ++ l2).
Proof.
  intros H1 H2 H12. induction H1 as [|x l1 Hs IH Hall]; simpl.
  - assumption.
  - constructor.
    + apply IH. intros a b Ha Hb. apply H12; [now right | assumption].
    + apply Forall_app. split; [assumption |].
      apply Forall_forall. intros y Hy. apply H12; [now left | assumption].
Qed.

Lemma sorted_split (R : list nat -> list nat -> Prop)
      (l1 l2 : list (list nat)) (x : list nat) :
  StronglySorted R (l1 ++ x :: l2) -> Forall (R x) l2.
Proof.
  induction l1 as [|y l1 IH]; simpl; intros H.
  - now apply StronglySorted_inv in H.
  - apply StronglySorted_inv in H. now apply IH.
Qed.

Lemma sorted_map_cons (j : nat) (l : list (list nat)) :
  StronglySorted lex_lt l -> StronglySorted lex_lt (map (cons j) l).
Proof.
  induction 1 as [|x l Hs IH Hall]; simpl; constructor.
  - assumption.
  - apply Forall_forall. intros y Hy.
    apply in_map_iff in Hy. destruct Hy as (y' & <- & Hy').
    rewrite Forall_forall in Hall. apply lex_lt_tail. now apply Hall.
Qed.

(** The enumeration order is the lexicographic order. *)
Lemma combos_sorted (m : nat) :
  forall i n, StronglySorted lex_lt (combos m i n).
Proof.
  induction m as [|m IH]; intros i n; simpl.
  - repeat constructor.
  - unfold range. generalize (n - i)%nat as k. intros k. revert i.
    induction k as [|k IHk]; intros i; simpl.
    + constructor.
    + apply sorted_app.
      * apply sorted_map_cons, IH.
      * apply IHk.
      * intros x y Hx Hy.
        apply in_map_iff in Hx. destruct Hx as (x' & <- & _).
        apply in_flat_map in Hy. destruct Hy as (j & Hj & Hy).
        apply in_map_iff in Hy. destruct Hy as (y' & <- & _).
        apply in_seq in Hj. apply lex_lt_head. lia.
Qed.

Lemma lex_lt_irrefl (t : list nat) : ~ lex_lt t t.
Proof.
  induction t as [|x t IH]; intros H; inversion H; subst; try lia; auto.
Qed.

End CombosFacts.

(** *** A boundary at [n] is never needed *)

Section LastBoundary.

Variable arr : list Z.
Hypothesis arr_nonneg : Forall (fun w => 0 <= w) arr.

Let n : nat := length arr.

Lemma sum_div_seg_sums (D : list nat) : sum_div arr D = seg_sums arr 0 D.
Proof. reflexivity. Qed.

Lemma seg_sums_nil (s : nat) : seg_sums arr s [] = [sum (slice arr s n)].
Proof. reflexivity. Qed.

Lemma seg_sums_cons (s d : nat) (D : list nat) :
  seg_sums arr s (d :: D) = sum (slice arr s d) :: seg_sums arr d D.
Proof. reflexivity. Qed.

(** Cutting a segment in two does not raise the cost. *)
Lemma cut_segment (s c e : nat) :
  (s <= c <= e)%nat ->
  sum (slice arr s c) ^ 2 + sum (slice arr c e) ^ 2 <= sum (slice arr s e) ^ 2.
Proof.
  intros H. rewrite (slice_split arr s c e H), sum_app.
  pose proof (slice_nonneg arr s c arr_nonneg).
  pose proof (slice_nonneg arr c e arr_nonneg).
  nia.
Qed.

(** A last boundary at [n] only adds an empty segment. *)
Lemma score_last_boundary (D : list nat) :
  forall s, score (seg_sums arr s (D ++ [n])) = score (seg_sums arr s D).
Proof.
  induction D as [|d D IH]; intros s.
  - simpl app. rewrite seg_sums_cons, !seg_sums_nil, !score_cons.
    rewrite slice_empty, sum_nil, score_nil. lia.
  - simpl app. rewrite !seg_sums_cons, !score_cons, IH. reflexivity.
Qed.

(** A strictly increasing list that leaves room below [n] can take one
    more boundary, at no higher cost than without it, and the result comes
    before the list extended by [n]. *)
Lemma extra_boundary (D : list nat) :
  forall s lo,
    (s <= lo)%nat -> chain lo D n -> (length D < n - lo)%nat ->
    exists D',
      chain lo D' n /\ length D' = S (length D) /\
      score (seg_sums arr s D') <= score (seg_sums arr s D) /\
      lex_lt D' (D ++ [n]).
Proof.
  induction D as [|d D IH]; intros s lo Hs Hch Hlen; simpl in *.
  - exists [lo]. simpl. repeat split; try lia.
    + rewrite seg_sums_cons, !seg_sums_nil, !score_cons, score_nil.
      pose proof (cut_segment s lo n). lia.
    + apply lex_lt_head. lia.
  - destruct Hch as [Hd Hch].
    destruct (Nat.eq_dec lo d) as [->|Hne].
    + destruct (IH d (S d)) as (D' & Hch' & Hlen' & Hsc & Hlex);
        try lia; try assumption.
      exists (d :: D'). simpl. repeat split; try lia; try assumption.
      * rewrite !seg_sums_cons, !score_cons. lia.
      * now apply lex_lt_tail.
    + exists (lo :: d :: D). simpl. repeat split; try lia; try assumption.
      * rewrite !seg_sums_cons, !score_cons.
        pose proof (cut_segment s lo d). lia.
      * apply lex_lt_head. lia.
Qed.

Lemma chain_last (B : list nat) :
  forall lo,
    chain lo B (S n) ->
    chain lo B n \/ exists D, B = D ++ [n] /\ chain lo D n.
Proof.
  induction B as [|x B IH]; intros lo; simpl.
  - auto.
  - intros [Hx Hch]. destruct (Nat.eq_dec x n) as [->|Hne].
    + right. exists []. destruct B as [|y B]; simpl in *; [auto | lia].
    + destruct (IH _ Hch) as [Hin|(D & -> & HD)].
      * left. split; [lia | assumption].
      * right. exists (x :: D). simpl. repeat split; try lia; assumption.
Qed.

(** Every boundary set drawn from [0, n] is matched by a visited one, drawn
    from [0, n - 1], of no higher cost and not later in the lexicographic
    order. *)
Lemma visited_dominates (B : list nat) :
  chain 0 B (S n) -> (length B <= n)%nat ->
  exists B',
    chain 0 B' n /\ length B' = length B /\
    cost arr B' <= cost arr B /\ (B' = B \/ lex_lt B' B).
Proof.
  intros Hch Hlen. destruct (chain_last B 0 Hch) as [Hin|(D & -> & HD)].
  - exists B. repeat split; auto; lia.
  - rewrite length_app in Hlen. simpl in Hlen.
    destruct (extra_boundary D 0 0) as (D' & Hch' & Hlen' & Hsc & Hlex);
      try lia; try assumption.
    exists D'. unfold cost. rewrite !sum_div_seg_sums, score_last_boundary.
    rewrite length_app. simpl. repeat split; auto; lia.
Qed.

End LastBoundary.

(** *** What [balance_categories] returns *)

Section BalanceFacts.

Variable arr : list Z.
Variable num_cats : Z.

Let n : nat := length arr.
Let r : list nat := balance_categories arr num_cats.

Lemma balance_categories_fold :
  r = best (fold_left (fun d t => consider arr t d)
                      (candidates (num_cats - 1) 0 n)
                      {| best := repeat 0%nat (Z.to_nat (num_cats - 1));
                         top_score := maxsize |}).
Proof.
  unfold r, balance_categories.
  rewrite bal_cat_rec_candidates by lia. reflexivity.
Qed.

(** Either no candidate scores below [maxsize] and the initial tuple of
    zeros comes back, or the first candidate of least cost does. *)
Lemma balance_categories_cases :
  (r = repeat 0%nat (Z.to_nat (num_cats - 1)) /\
   Forall (fun t => maxsize <= cost arr t) (candidates (num_cats - 1) 0 n)) \/
  (exists l1 l2,
      candidates (num_cats - 1) 0 n = l1 ++ r :: l2 /\
      cost arr r < maxsize /\
      Forall (fun u => cost arr r < cost arr u) l1 /\
      Forall (fun u => cost arr r <= cost arr u) l2).
Proof.
  rewrite balance_categories_fold.
  destruct (fold_consider arr (candidates (num_cats - 1) 0 n)
              {| best := repeat 0%nat (Z.to_nat (num_cats - 1));
                 top_score := maxsize |})
    as [[-> Hall]|(l1 & t & l2 & HL & -> & Hc & H1 & H2)]; simpl in *.
  - left. auto.
  - right. exists l1, l2. auto.
Qed.

Lemma visited_candidates (B : list nat) :
  visited_set n num_cats B <-> In B (candidates (num_cats - 1) 0 n).
Proof.
  unfold visited_set, candidates. split.
  - intros (Hlen & Hs & Hall).
    destruct (Z.ltb_spec (num_cats - 1) 0); [lia |].
    apply in_combos. split; [lia |].
    apply chain_sorted. split; [assumption |].
    eapply Forall_impl; [| exact Hall]. simpl. lia.
  - destruct (Z.ltb_spec (num_cats - 1) 0); [intros [] |].
    intros HB. apply in_combos in HB. destruct HB as [Hlen Hch].
    apply chain_sorted in Hch. destruct Hch as [Hs Hall].
    repeat split; [lia | assumption |].
    eapply Forall_impl; [| exact Hall]. simpl. lia.
Qed.

Lemma visited_boundary (B : list nat) :
  visited_set n num_cats B -> boundary_set n num_cats B.
Proof.
  intros (Hlen & Hs & Hall). repeat split; auto.
  eapply Forall_impl; [| exact Hall]. simpl. lia.
Qed.

Lemma boundary_chain (B : list nat) :
  boundary_set n num_cats B -> chain 0 B (S n).
Proof.
  intros (Hlen & Hs & Hall). apply chain_sorted. split; auto.
  eapply Forall_impl; [| exact Hall]. simpl. lia.
Qed.

(** With non-negative weights a boundary set of cost below [maxsize]
    gives a visited one of cost below [maxsize]. *)
Lemma boundary_visited (B : list nat) :
  Forall (fun w => 0 <= w) arr ->
  num_cats <= Z.of_nat n + 1 ->
  boundary_set n num_cats B ->
  exists B',
    visited_set n num_cats B' /\ cost arr B' <= cost arr B /\
    (B' = B \/ lex_lt B' B).
Proof.
  intros Hnn Hle HB. pose proof (boundary_chain B HB) as Hch.
  destruct HB as (Hlen & _ & _).
  destruct (visited_dominates arr Hnn B Hch) as (B' & Hch' & Hlen' & Hc & Hlex).
  - fold n. lia.
  - exists B'. repeat split; auto.
    + lia.
    + now apply chain_sorted in Hch'.
    + apply chain_sorted in Hch'. destruct Hch' as [_ Hall].
      eapply Forall_impl; [| exact Hall]. simpl. lia.
Qed.

(** When some visited set scores below [maxsize], the result is the first
    visited set of least cost. *)
Lemma balance_categories_first (B0 : list nat) :
  visited_set n num_cats B0 -> cost arr B0 < maxsize ->
  visited_set n num_cats r /\
  forall B, visited_set n num_cats B ->
            cost arr r <= cost arr B /\
            (cost arr B <= cost arr r -> B = r \/ lex_lt r B).
Proof.
  intros HB0 Hc0.
  destruct balance_categories_cases
    as [[_ Hall]|(l1 & l2 & HL & Hc & H1 & H2)].
  - apply visited_candidates in HB0. rewrite Forall_forall in Hall.
    specialize (Hall B0 HB0). simpl in Hall. lia.
  - assert (Hr : In r (candidates (num_cats - 1) 0 n)).
    { rewrite HL. apply in_elt. }
    split; [now apply visited_candidates |].
    intros B HB. apply visited_candidates in HB.
    assert (Hsorted : StronglySorted lex_lt (candidates (num_cats - 1) 0 n)).
    { unfold candidates. destruct (num_cats - 1 <? 0).
      - constructor.
      - apply combos_sorted. }
    rewrite HL in HB, Hsorted. apply sorted_split in Hsorted.
    rewrite Forall_forall in H1, H2, Hsorted.
    apply in_app_or in HB. destruct HB as [HB|[<-|HB]].
    + specialize (H1 B HB). simpl in H1. split; lia.
    + split; [lia | auto].
    + specialize (H2 B HB). simpl in H2. split; [lia |].
      intros _. right. now apply Hsorted.
Qed.

Lemma chain_length (t : list nat) :
  forall lo hi, chain lo t hi -> (length t <= hi - lo)%nat.
Proof.
  induction t as [|x t IH]; intros lo hi; simpl.
  - lia.
  - intros [Hx Hch]. specialize (IH _ _ Hch). lia.
Qed.

Lemma candidates_too_many : num_cats - 1 > Z.of_nat n ->
                            candidates (num_cats - 1) 0 n = [].
Proof.
  intros H. unfold candidates.
  destruct (Z.ltb_spec (num_cats - 1) 0); [reflexivity |].
  destruct (combos (Z.to_nat (num_cats - 1)) 0 n) as [|t L] eqn:E;
    [reflexivity |].
  assert (Ht : In t (combos (Z.to_nat (num_cats - 1)) 0 n))
    by (rewrite E; now left).
  apply in_combos in Ht. destruct Ht as [Hlen Hch].
  apply chain_length in Hch. lia.
Qed.

Lemma balance_categories_length :
  length r = Z.to_nat (num_cats - 1).
Proof.
  destruct balance_categories_cases
    as [[-> _]|(l1 & l2 & HL & _)].
  - apply repeat_length.
  - assert (Hr : In r (candidates (num_cats - 1) 0 n)).
    { rewrite HL. apply in_elt. }
    unfold candidates in Hr.
    destruct (num_cats - 1 <? 0); [destruct Hr |].
    now apply in_combos in Hr.
Qed.

Lemma balance_categories_below :
  (1 <= n)%nat -> Forall (fun b => (b < n)%nat) r.
Proof.
  intros Hn. destruct balance_categories_cases
    as [[-> _]|(l1 & l2 & HL & _)].
  - apply Forall_forall. intros b Hb. apply repeat_spec in Hb. lia.
  - assert (Hr : In r (candidates (num_cats - 1) 0 n)).
    { rewrite HL. apply in_elt. }
    apply visited_candidates in Hr. now destruct Hr as (_ & _ & Hall).
Qed.

Lemma balance_categories_upto : Forall (fun b => (b <= n)%nat) r.
Proof.
  destruct balance_categories_cases
    as [[-> _]|(l1 & l2 & HL & _)].
  - apply Forall_forall. intros b Hb. apply repeat_spec in Hb. lia.
  - assert (Hr : In r (candidates (num_cats - 1) 0 n)).
    { rewrite HL. apply in_elt. }
    apply visited_candidates in Hr. destruct Hr as (_ & _ & Hall).
    eapply Forall_impl; [| exact Hall]. simpl. lia.
Qed.

End BalanceFacts.

Lemma lex_lt_trans (a b c : list nat) : lex_lt a b -> lex_lt b c -> lex_lt a c.
Proof.
  intros Hab. revert c. induction Hab as [y l|x y l1 l2 Hxy|x l1 l2 Hl IH];
    intros c Hbc; inversion Hbc; subst.
  - constructor.
  - constructor.
  - apply lex_lt_head. lia.
  - now apply lex_lt_head.
  - now apply lex_lt_head.
  - apply lex_lt_tail. now apply IH.
Qed.

Lemma last_Forall (P : nat -> Prop) (l : list nat) (d : nat) :
  Forall P l -> P d -> P (last l d).
Proof.
  intros Hall Hd. induction Hall as [|x l Hx Hall IH]; simpl.
  - assumption.
  - destruct l; [assumption | exact IH].
Qed.

(** *** The claims about the partitioner *)

(** X27, optimality below the sentinel: for non-negative weights and
    [1 <= num_cats <= n + 1], whenever some boundary set costs less than
    [sys.maxsize], the list [balance_categories] returns is a boundary set
    whose cost is the least over all strictly increasing boundary sets drawn
    from [0, n]. *)
Theorem balance_categories_optimal (arr : list Z) (num_cats : Z) :
  Forall (fun w => 0 <= w) arr ->
  1 <= num_cats <= Z.of_nat (length arr) + 1 ->
  (exists B0, boundary_set (length arr) num_cats B0 /\ cost arr B0 < maxsize) ->
  boundary_set (length arr) num_cats (balance_categories arr num_cats) /\
  forall B, boundary_set (length arr) num_cats B ->
            cost arr (balance_categories arr num_cats) <= cost arr B.
Proof.
  intros Hnn Hgc (B0 & HB0 & Hc0).
  destruct (boundary_visited arr num_cats B0 Hnn (proj2 Hgc) HB0)
    as (B0' & HB0' & Hc0' & _).
  destruct (balance_categories_first arr num_cats B0' HB0') as [Hr Hmin];
    [lia |].
  split; [now apply visited_boundary |].
  intros B HB.
  destruct (boundary_visited arr num_cats B Hnn (proj2 Hgc) HB)
    as (B' & HB' & Hc' & _).
  destruct (Hmin B' HB') as [Hle _]. lia.
Qed.

Lemma balance_categories_optimal_witness :
  let arr := [5; 3; 3; 5] in
  boundary_set 4 2 (balance_categories arr 2) /\
  forall B, boundary_set 4 2 B -> cost arr (balance_categories arr 2) <= cost arr B.
Proof.
  apply (balance_categories_optimal [5; 3; 3; 5] 2).
  - repeat constructor; lia.
  - simpl. lia.
  - exists [2%nat]. split.
    + repeat split; repeat constructor.
    + reflexivity.
Defined.

(** C1: the returned boundary set is not always of least cost.  [top_score]
    starts at [sys.maxsize] and a candidate is kept only when its score is
    strictly below it, so for the non-negative weights [2^32, 2^32] and two
    groups no candidate is kept: the call returns the initial [0], of cost
    [2^66], while the boundary set [1] costs [2^65].  The comment on
    [bal_cat_rec] promises the optimal dividers. *)
Lemma balance_categories_optimal_fails_above_maxsize :
  let arr := [2 ^ 32; 2 ^ 32] in
  Forall (fun w => 0 <= w) arr /\
  1 <= 2 <= Z.of_nat (length arr) + 1 /\
  balance_categories arr 2 = [0%nat] /\
  boundary_set (length arr) 2 [1%nat] /\
  cost arr [1%nat] < cost arr (balance_categories arr 2).
Proof.
  simpl. repeat split; try lia; repeat constructor; lia.
Qed.

(** X28, tie-break below the sentinel: [balance_categories] is a function of its
    input; for non-negative weights and [1 <= num_cats <= n + 1], whenever
    some boundary set costs less than [sys.maxsize], the returned list is a
    boundary set of least cost, and every boundary set of that same cost is
    the returned one or comes after it in the lexicographic order; and the
    weights [1,1,1,1] with two groups give [2], of cost 8, the boundaries [1]
    and [3] costing 10 each. *)
Theorem balance_categories_tie_break :
  (forall arr arr' num_cats num_cats',
      arr = arr' -> num_cats = num_cats' ->
      balance_categories arr num_cats = balance_categories arr' num_cats') /\
  (forall arr num_cats,
      Forall (fun w => 0 <= w) arr ->
      1 <= num_cats <= Z.of_nat (length arr) + 1 ->
      (exists B0, boundary_set (length arr) num_cats B0 /\ cost arr B0 < maxsize) ->
      boundary_set (length arr) num_cats (balance_categories arr num_cats) /\
      forall B,
        boundary_set (length arr) num_cats B ->
        cost arr (balance_categories arr num_cats) <= cost arr B /\
        (cost arr B <= cost arr (balance_categories arr num_cats) ->
         B = balance_categories arr num_cats \/
         lex_lt (balance_categories arr num_cats) B)) /\
  (balance_categories [1; 1; 1; 1] 2 = [2%nat] /\
   cost [1; 1; 1; 1] [2%nat] = 8 /\
   cost [1; 1; 1; 1] [1%nat] = 10 /\
   cost [1; 1; 1; 1] [3%nat] = 10).
Proof.
  split; [| split].
  - intros arr arr' num_cats num_cats' -> ->. reflexivity.
  - intros arr num_cats Hnn Hgc (B0 & HB0 & Hc0).
    destruct (boundary_visited arr num_cats B0 Hnn (proj2 Hgc) HB0)
      as (B0' & HB0' & Hc0' & _).
    destruct (balance_categories_first arr num_cats B0' HB0') as [Hr Hfirst];
      [lia |].
    split; [now apply visited_boundary |].
    intros B HB.
    destruct (boundary_visited arr num_cats B Hnn (proj2 Hgc) HB)
      as (B' & HB' & Hc' & Hlex).
    destruct (Hfirst B' HB') as [Hle Hfst].
    split; [lia |].
    intros HBr. destruct Hfst as [->|Hlt]; [lia | |].
    + destruct Hlex as [<-|Hlex]; auto.
    + destruct Hlex as [<-|Hlex]; auto.
      right. eapply lex_lt_trans; eassumption.
  - repeat split.
Qed.

Lemma balance_categories_tie_break_witness :
  let arr := [1; 1; 1; 1] in
  boundary_set 4 2 (balance_categories arr 2) /\
  forall B,
    boundary_set 4 2 B ->
    cost arr (balance_categories arr 2) <= cost arr B /\
    (cost arr B <= cost arr (balance_categories arr 2) ->
     B = balance_categories arr 2 \/ lex_lt (balance_categories arr 2) B).
Proof.
  apply (proj1 (proj2 balance_categories_tie_break) [1; 1; 1; 1] 2).
  - repeat constructor; lia.
  - simpl. lia.
  - exists [2%nat]. split.
    + repeat split; repeat constructor.
    + reflexivity.
Defined.

(** C5: among the boundary sets of least cost the lexicographically smallest
    is not always the one returned.  For the non-negative weights
    [2^32, 0, 2^32] and two groups the boundary sets [1] and [2] both have
    the least cost, [1] is the lexicographically smaller, and the call
    returns [0], whose cost is higher: no score is below the initial
    [top_score], [sys.maxsize], so the initial tuple is kept. *)
Lemma balance_categories_tie_break_fails_above_maxsize :
  let arr := [2 ^ 32; 0; 2 ^ 32] in
  Forall (fun w => 0 <= w) arr /\
  boundary_set (length arr) 2 [1%nat] /\
  boundary_set (length arr) 2 [2%nat] /\
  cost arr [1%nat] = cost arr [2%nat] /\
  (forall B, boundary_set (length arr) 2 B -> cost arr [1%nat] <= cost arr B) /\
  lex_lt [1%nat] [2%nat] /\
  balance_categories arr 2 = [0%nat] /\
  cost arr [1%nat] < cost arr (balance_categories arr 2).
Proof.
  simpl. repeat split; try lia; repeat constructor; try lia.
  intros B (Hlen & _ & Hall).
  destruct B as [|b [|b' B]]; simpl in Hlen; try lia.
  inversion Hall as [|? ? Hb _]; subst.
  destruct b as [|[|[|[|b]]]]; try lia; vm_compute; congruence.
Qed.

(** X29, shape of the result: for non-negative weights and [1 <= num_cats <=
    n + 1] the returned list has [num_cats - 1] elements, all in [0, n], and
    is empty for [num_cats = 1]; it is strictly increasing whenever some
    boundary set costs less than [sys.maxsize]. *)
Theorem balance_categories_shape (arr : list Z) (num_cats : Z) :
  Forall (fun w => 0 <= w) arr ->
  1 <= num_cats <= Z.of_nat (length arr) + 1 ->
  Z.of_nat (length (balance_categories arr num_cats)) = num_cats - 1 /\
  Forall (fun b => (0 <= b <= length arr)%nat) (balance_categories arr num_cats) /\
  (num_cats = 1 -> balance_categories arr num_cats = []) /\
  ((exists B0, boundary_set (length arr) num_cats B0 /\ cost arr B0 < maxsize) ->
   StronglySorted Nat.lt (balance_categories arr num_cats)).
Proof.
  intros Hnn Hgc.
  pose proof (balance_categories_length arr num_cats) as Hlen.
  repeat split.
  - lia.
  - eapply Forall_impl; [| apply balance_categories_upto]. simpl. lia.
  - intros ->. simpl in Hlen. now apply length_zero_iff_nil.
  - intros (B0 & HB0 & Hc0).
    destruct (boundary_visited arr num_cats B0 Hnn (proj2 Hgc) HB0)
      as (B0' & HB0' & Hc0' & _).
    destruct (balance_categories_first arr num_cats B0' HB0') as [Hr _];
      [lia |].
    now destruct Hr as (_ & Hs & _).
Qed.

Lemma balance_categories_shape_witness :
  let arr := [3; 1; 4; 1; 5; 9; 2; 6] in
  Z.of_nat (length (balance_categories arr 4)) = 4 - 1 /\
  Forall (fun b => (0 <= b <= length arr)%nat) (balance_categories arr 4) /\
  (4 = 1 -> balance_categories arr 4 = []) /\
  ((exists B0, boundary_set (length arr) 4 B0 /\ cost arr B0 < maxsize) ->
   StronglySorted Nat.lt (balance_categories arr 4)).
Proof.
  apply (balance_categories_shape [3; 1; 4; 1; 5; 9; 2; 6] 4).
  - repeat constructor; lia.
  - simpl. lia.
Defined.

(** C6: the returned list is not always strictly increasing.  For the
    non-negative weights [2^32, 0] and three groups the only candidate,
    [(0, 1)], scores [2^64], which is not below the initial [top_score],
    [sys.maxsize]; the call returns the initial tuple [0, 0], which has a
    repeated boundary. *)
Lemma balance_categories_shape_fails_above_maxsize :
  let arr := [2 ^ 32; 0] in
  Forall (fun w => 0 <= w) arr /\
  1 <= 3 <= Z.of_nat (length arr) + 1 /\
  balance_categories arr 3 = [0%nat; 0%nat] /\
  ~ StronglySorted Nat.lt (balance_categories arr 3).
Proof.
  simpl. repeat split; try lia; try (repeat constructor; lia).
  change (balance_categories [2 ^ 32; 0] 3) with [0%nat; 0%nat].
  intros H. apply StronglySorted_inv in H. destruct H as [_ H].
  inversion H as [|? ? H0 _]; subst. unfold Nat.lt in H0. lia.
Qed.

(** C9, as the code has it: [balance_categories] has no argument check and
    raises nothing; with [num_cats <= 0] it returns the empty list, and with
    [num_cats - 1 > n] it returns [num_cats - 1] zeros. *)
Theorem balance_categories_degenerate (arr : list Z) (num_cats : Z) :
  (num_cats <= 0 -> call_balance_categories arr num_cats = Returns []) /\
  (num_cats - 1 > Z.of_nat (length arr) ->
   call_balance_categories arr num_cats =
   Returns (repeat 0%nat (Z.to_nat (num_cats - 1)))).
Proof.
  unfold call_balance_categories. split; intros H; f_equal.
  - pose proof (balance_categories_length arr num_cats) as Hlen.
    apply length_zero_iff_nil. lia.
  - destruct (balance_categories_cases arr num_cats)
      as [[Hr _]|(l1 & l2 & HL & _)]; [assumption |].
    rewrite candidates_too_many in HL by assumption.
    now apply app_cons_not_nil in HL.
Qed.

Lemma balance_categories_degenerate_witness :
  call_balance_categories [1; 2] 0 = Returns [] /\
  call_balance_categories [1] 4 = Returns [0%nat; 0%nat; 0%nat].
Proof.
  split.
  - apply (proj1 (balance_categories_degenerate [1; 2] 0)). lia.
  - apply (proj2 (balance_categories_degenerate [1] 4)). simpl. lia.
Defined.

(** C9 as stated fails: the degenerate calls return a list, no
    [InvalidArgument] is raised. *)
Lemma balance_categories_raises_nothing :
  call_balance_categories [1; 2] 0 = Returns [] /\
  call_balance_categories [1; 2] 0 <> Raises InvalidArgument /\
  call_balance_categories [1] 4 = Returns [0%nat; 0%nat; 0%nat] /\
  call_balance_categories [1] 4 <> Raises InvalidArgument.
Proof.
  repeat split; discriminate.
Qed.

(** C10: for a weight list of length [n >= 1], every boundary that
    [balance_categories] returns is at most [n - 1] (for every [num_cats], in
    particular for the valid ones from 2 on), so the last segment
    [arr[last:n]] holds at least one bucket. *)
Theorem balance_categories_below_n (arr : list Z) (num_cats : Z) :
  (1 <= length arr)%nat ->
  Forall (fun b => (b <= length arr - 1)%nat) (balance_categories arr num_cats) /\
  (1 <= length (slice arr (last (balance_categories arr num_cats) 0%nat)
                      (length arr)))%nat.
Proof.
  intros Hn. pose proof (balance_categories_below arr num_cats Hn) as Hall.
  split.
  - eapply Forall_impl; [| exact Hall]. simpl. lia.
  - rewrite slice_length.
    pose proof (last_Forall _ _ 0%nat Hall). simpl in H. lia.
Qed.

Lemma balance_categories_below_n_witness :
  let arr := [3; 1; 4; 1; 5; 9; 2; 6] in
  Forall (fun b => (b <= length arr - 1)%nat) (balance_categories arr 4) /\
  (1 <= length (slice arr (last (balance_categories arr 4) 0%nat)
                      (length arr)))%nat.
Proof.
  apply (balance_categories_below_n [3; 1; 4; 1; 5; 9; 2; 6] 4). simpl. lia.
Defined.

(** ** Part 5: facts about the position shuffle *)

Section StoreFacts.

Lemma position_set_position (c c' p : Z) (st : store) :
  position (set_position c p st c') = if c' =? c then p else position (st c').
Proof. unfold set_position. now destruct (c' =? c). Qed.

Lemma position_set_category_id (c c' cat : Z) (st : store) :
  position (set_category_id c cat st c') = position (st c').
Proof.
  unfold set_category_id. destruct (Z.eqb_spec c' c); [now subst | reflexivity].
Qed.

Lemma category_id_set_position (c c' p : Z) (st : store) :
  category_id (set_position c p st c') = category_id (st c').
Proof.
  unfold set_position. destruct (Z.eqb_spec c' c); [now subst | reflexivity].
Qed.

(** One pass of a loop [for other_channel in channels: if cond(position):
    position = f(position)] over distinct channels changes each of them
    once, by its own position before the loop. *)
Lemma loop_positions (cond : Z -> bool) (f : Z -> Z) (channels : list Z) :
  NoDup channels ->
  forall (st : store) (c : Z),
    position
      (fold_left
         (fun st' other_channel =>
            let p := position (st' other_channel) in
            if cond p then set_position other_channel (f p) st' else st')
         channels st c) =
    if in_dec Z.eq_dec c channels
    then (if cond (position (st c)) then f (position (st c)) else position (st c))
    else position (st c).
Proof.
  induction 1 as [|x l Hx Hnd IH]; intros st c; simpl fold_left.
  - reflexivity.
  - rewrite IH. cbv zeta.
    destruct (in_dec Z.eq_dec c l) as [Hin|Hnin];
      destruct (in_dec Z.eq_dec c (x :: l)) as [Hin'|Hnin'];
      try (exfalso; apply Hnin'; now right).
    + assert (c <> x) by (intros ->; contradiction).
      destruct (cond (position (st x)));
        rewrite ?position_set_position;
        destruct (Z.eqb_spec c x); try contradiction; reflexivity.
    + destruct Hin' as [->|Hin']; [| contradiction].
      destruct (cond (position (st c))) eqn:E;
        rewrite ?position_set_position, ?Z.eqb_refl; reflexivity.
    + assert (c <> x) by (intros ->; apply Hnin'; now left).
      destruct (cond (position (st x)));
        rewrite ?position_set_position;
        destruct (Z.eqb_spec c x); try contradiction; reflexivity.
Qed.

Lemma loop_fixed (cond : Z -> bool) (f : Z -> Z) (channels : list Z)
      (st : store) :
  (forall p, cond p = false) ->
  fold_left
    (fun st' other_channel =>
       let p := position (st' other_channel) in
       if cond p then set_position other_channel (f p) st' else st')
    channels st = st.
Proof.
  intros H. apply fold_left_fixed. intros x st' _. cbv zeta. now rewrite H.
Qed.

Lemma shift_up_position (new_pos old_pos : Z) (channels : list Z)
      (st : store) (c : Z) :
  NoDup channels ->
  position (shift_up new_pos old_pos channels st c) =
  if in_dec Z.eq_dec c channels
  then (if (new_pos <=? position (st c)) && (position (st c) <? old_pos)
        then position (st c) + 1 else position (st c))
  else position (st c).
Proof.
  intros Hnd. unfold shift_up.
  exact (loop_positions (fun p => (new_pos <=? p) && (p <? old_pos))
                        (fun p => p + 1) channels Hnd st c).
Qed.

Lemma shift_down_position (old_pos new_pos : Z) (channels : list Z)
      (st : store) (c : Z) :
  NoDup channels ->
  position (shift_down old_pos new_pos channels st c) =
  if in_dec Z.eq_dec c channels
  then (if (old_pos <? position (st c)) && (position (st c) <=? new_pos)
        then position (st c) - 1 else position (st c))
  else position (st c).
Proof.
  intros Hnd. unfold shift_down.
  exact (loop_positions (fun p => (old_pos <? p) && (p <=? new_pos))
                        (fun p => p - 1) channels Hnd st c).
Qed.

Lemma move_channel_position (channels : list Z) (channel category new_pos : Z)
      (st : store) (c : Z) :
  position (move_channel channels channel category new_pos st c) =
  if c =? channel then new_pos
  else position
         ((if position (st channel) >? new_pos
           then shift_up new_pos (position (st channel)) channels st
           else shift_down (position (st channel)) new_pos channels st) c).
Proof.
  unfold move_channel. cbv zeta.
  rewrite position_set_position, position_set_category_id. reflexivity.
Qed.

End StoreFacts.

Ltac split_tests :=
  repeat match goal with
         | |- context [Z.gtb ?a ?b] => rewrite (Z.gtb_ltb a b)
         | H : context [Z.gtb ?a ?b] |- _ => rewrite (Z.gtb_ltb a b) in H
         end;
  repeat match goal with
         | |- context [Z.eqb ?a ?b] => destruct (Z.eqb_spec a b)
         | |- context [Z.ltb ?a ?b] => destruct (Z.ltb_spec a b)
         | |- context [Z.leb ?a ?b] => destruct (Z.leb_spec a b)
         | H : context [Z.eqb ?a ?b] |- _ => destruct (Z.eqb_spec a b)
         | H : context [Z.ltb ?a ?b] |- _ => destruct (Z.ltb_spec a b)
         | H : context [Z.leb ?a ?b] |- _ => destruct (Z.leb_spec a b)
         end;
  simpl in *.

Section MoveFacts.

Variable channels : list Z.
Variable channel category new_pos : Z.
Variable st : store.
Hypothesis channels_distinct : NoDup channels.

Let old_pos : Z := position (st channel).
Let st' : store := move_channel channels channel category new_pos st.

(** Every channel of [channels] whose position is not the moved one's goes
    where [moved] says; so does the moved channel. *)
Lemma move_channel_moved (c : Z) :
  In c channels ->
  (c = channel \/ position (st c) <> old_pos) ->
  position (st' c) = moved old_pos new_pos (position (st c)).
Proof.
  intros Hin Hc. unfold st'. rewrite move_channel_position.
  fold old_pos. unfold moved.
  destruct (Z.eqb_spec c channel) as [->|Hne].
  - fold old_pos. now rewrite Z.eqb_refl.
  - destruct Hc as [?|Hp]; [contradiction |].
    destruct (Z.eqb_spec (position (st c)) old_pos); [contradiction |].
    destruct (old_pos >? new_pos).
    + rewrite shift_up_position by assumption.
      destruct (in_dec Z.eq_dec c channels); [reflexivity | contradiction].
    + rewrite shift_down_position by assumption.
      destruct (in_dec Z.eq_dec c channels); [reflexivity | contradiction].
Qed.

Lemma move_channel_outside (c : Z) :
  c <> channel -> ~ In c channels -> position (st' c) = position (st c).
Proof.
  intros Hne Hnin. unfold st'. rewrite move_channel_position.
  destruct (Z.eqb_spec c channel); [contradiction |].
  destruct (position (st channel) >? new_pos).
  - rewrite shift_up_position by assumption.
    destruct (in_dec Z.eq_dec c channels); [contradiction | reflexivity].
  - rewrite shift_down_position by assumption.
    destruct (in_dec Z.eq_dec c channels); [contradiction | reflexivity].
Qed.

End MoveFacts.

Section MovedFacts.

Variables old_pos new_pos : Z.

Lemma moved_compare (p q : Z) :
  p <> old_pos -> q <> old_pos ->
  (moved old_pos new_pos p ?= moved old_pos new_pos q) = (p ?= q).
Proof.
  intros Hp Hq. unfold moved. split_tests; try contradiction;
    match goal with
    | |- (?a ?= ?b) = (?c ?= ?d) =>
        destruct (Z.compare_spec a b); destruct (Z.compare_spec c d)
    end; try reflexivity; lia.
Qed.

Lemma moved_injective (p q : Z) :
  moved old_pos new_pos p = moved old_pos new_pos q -> p = q.
Proof.
  unfold moved. split_tests; lia.
Qed.

Lemma moved_in_range (n p : Z) :
  0 <= old_pos < n -> 0 <= new_pos < n -> 0 <= p < n ->
  0 <= moved old_pos new_pos p < n.
Proof.
  unfold moved. intros Ho Hn Hp. split_tests; lia.
Qed.

(** Every slot of the range is taken after the move. *)
Lemma moved_onto (n k : Z) :
  0 <= old_pos < n -> 0 <= new_pos < n -> 0 <= k < n ->
  exists p, 0 <= p < n /\ moved old_pos new_pos p = k.
Proof.
  intros Ho Hn Hk.
  destruct (Z.eq_dec k new_pos) as [->|Hne].
  - exists old_pos. unfold moved. now rewrite Z.eqb_refl.
  - destruct (Z_lt_le_dec new_pos old_pos) as [Hup|Hdown].
    + destruct (Z_lt_le_dec new_pos k) as [H1|H1];
        [destruct (Z_le_gt_dec k old_pos) as [H2|H2] |].
      * exists (k - 1). unfold moved. split; [lia |]. split_tests; lia.
      * exists k. unfold moved. split; [lia |]. split_tests; lia.
      * exists k. unfold moved. split; [lia |]. split_tests; lia.
    + destruct (Z_le_gt_dec old_pos k) as [H1|H1];
        [destruct (Z_lt_le_dec k new_pos) as [H2|H2] |].
      * exists (k + 1). unfold moved. split; [lia |]. split_tests; lia.
      * exists k. unfold moved. split; [lia |]. split_tests; lia.
      * exists k. unfold moved. split; [lia |]. split_tests; lia.
Qed.

End MovedFacts.

Section DenseFacts.

Lemma NoDup_map_injective (f : Z -> Z) (l : list Z) (a b : Z) :
  NoDup (map f l) -> In a l -> In b l -> f a = f b -> a = b.
Proof.
  induction l as [|x l IH]; simpl; intros Hnd Ha Hb Hf; [contradiction |].
  inversion Hnd as [|? ? Hx Hnd']; subst.
  destruct Ha as [->|Ha], Hb as [->|Hb]; auto.
  - exfalso. apply Hx. rewrite Hf. now apply in_map.
  - exfalso. apply Hx. rewrite <- Hf. now apply in_map.
Qed.

Lemma NoDup_map_on (f : Z -> Z) (l : list Z) :
  (forall a b, In a l -> In b l -> f a = f b -> a = b) ->
  NoDup l -> NoDup (map f l).
Proof.
  intros Hinj Hnd. induction Hnd as [|x l Hx Hnd IH]; simpl; constructor.
  - intros Hin. apply in_map_iff in Hin. destruct Hin as (y & Hf & Hy).
    assert (y = x) by (apply Hinj; simpl; auto). now subst.
  - apply IH. intros a b Ha Hb. apply Hinj; now right.
Qed.

Variable channels : list Z.
Variable channel category new_pos : Z.
Variable st : store.
Hypothesis channels_distinct : NoDup channels.
Hypothesis channel_listed : In channel channels.
Hypothesis positions_distinct : NoDup (positions channels st).

Lemma position_unique (c : Z) :
  In c channels -> c = channel \/ position (st c) <> position (st channel).
Proof.
  intros Hc. destruct (Z.eq_dec c channel) as [|Hne]; [now left | right].
  intros Heq. apply Hne.
  exact (NoDup_map_injective (fun c => position (st c)) channels c channel
           positions_distinct Hc channel_listed Heq).
Qed.

Lemma positions_move_channel :
  positions channels (move_channel channels channel category new_pos st) =
  map (moved (position (st channel)) new_pos) (positions channels st).
Proof.
  unfold positions. rewrite map_map. apply map_ext_in. intros c Hc.
  apply move_channel_moved; [assumption | assumption |].
  now apply position_unique.
Qed.

Lemma move_channel_dense_in_range :
  dense channels st ->
  0 <= new_pos < Z.of_nat (length channels) ->
  dense channels (move_channel channels channel category new_pos st).
Proof.
  intros [_ Hrange] Hnew. unfold dense.
  assert (Hold : 0 <= position (st channel) < Z.of_nat (length channels)).
  { apply Hrange. unfold positions.
    now apply (in_map (fun c => position (st c))). }
  rewrite positions_move_channel. split.
  - apply NoDup_map_on; [| assumption].
    intros a b _ _. apply moved_injective.
  - intros k. rewrite in_map_iff. split.
    + intros (p & <- & Hp). apply Hrange in Hp.
      now apply moved_in_range.
    + intros Hk.
      destruct (moved_onto (position (st channel)) new_pos _ k Hold Hnew Hk)
        as (p & Hp & Hm).
      exists p. split; [assumption | now apply Hrange].
Qed.

End DenseFacts.

(** *** The claims about the position shuffle *)

(** C2: from Apple(0), Banana(1), Cherry(2), Date(3) in one category, the
    loop body of [sort] run for Apple at rank 2, the rank right after Cherry
    in the wanted order Banana, Cherry, Apple, Date, leaves Apple at 2,
    Banana at 0, Cherry at 1 and Date at 3; so does the whole loop run for
    that wanted order. *)
Theorem apple_after_cherry :
  let ids := [1; 2; 3; 4] in
  map (fun c => name (fruit c)) ids
  = ["Apple"%string; "Banana"%string; "Cherry"%string; "Date"%string] /\
  positions ids fruit = [0; 1; 2; 3] /\
  positions_after ids (shuffle_step (channels_of ids) ids 100 2 1 fruit)
  = Some [2; 0; 1; 3] /\
  positions_after ids
    (shuffle (channels_of ids) ids [100] (fun _ => [2; 3; 1; 4]) fruit)
  = Some [2; 0; 1; 3].
Proof.
  repeat split.
Qed.

(** C3: a move of [channel] from [old_pos] to [new_pos] over distinct
    [channels] raises by one exactly the other channels positioned in
    [new_pos, old_pos) when [new_pos < old_pos], lowers by one exactly those
    positioned in (old_pos, new_pos] when [new_pos > old_pos], leaves every
    other position as it was, and puts [channel] at [new_pos]. *)
Theorem move_channel_shifts (channels : list Z) (channel category new_pos : Z)
        (st : store) :
  NoDup channels ->
  let old_pos := position (st channel) in
  let st' := move_channel channels channel category new_pos st in
  position (st' channel) = new_pos /\
  (forall other,
      other <> channel -> In other channels ->
      let p := position (st other) in
      (new_pos < old_pos ->
       (new_pos <= p < old_pos -> position (st' other) = p + 1) /\
       (~ new_pos <= p < old_pos -> position (st' other) = p)) /\
      (new_pos > old_pos ->
       (old_pos < p <= new_pos -> position (st' other) = p - 1) /\
       (~ old_pos < p <= new_pos -> position (st' other) = p)) /\
      (new_pos = old_pos -> position (st' other) = p)) /\
  (forall other,
      other <> channel -> ~ In other channels ->
      position (st' other) = position (st other)).
Proof.
  intros Hnd old_pos st'. split; [| split].
  - unfold st'. rewrite move_channel_position. now rewrite Z.eqb_refl.
  - intros other Hne Hin p. unfold st'. rewrite move_channel_position.
    fold old_pos. destruct (Z.eqb_spec other channel); [contradiction |].
    destruct (Z.gtb_spec old_pos new_pos) as [Hgt|Hle].
    + rewrite shift_up_position by assumption.
      destruct (in_dec Z.eq_dec other channels); [| contradiction].
      fold p. repeat split; intros; split_tests; lia.
    + rewrite shift_down_position by assumption.
      destruct (in_dec Z.eq_dec other channels); [| contradiction].
      fold p. repeat split; intros; split_tests; lia.
  - intros other Hne Hnin. now apply move_channel_outside.
Qed.

Lemma move_channel_shifts_witness :
  let ids := [1; 2; 3; 4] in
  let st' := move_channel ids 4 100 1 fruit in
  position (st' 4) = 1 /\ position (st' 2) = 2 /\ position (st' 1) = 0.
Proof.
  assert (Hnd : NoDup [1; 2; 3; 4]).
  { repeat constructor; simpl; intros H; intuition discriminate. }
  destruct (move_channel_shifts [1; 2; 3; 4] 4 100 1 fruit Hnd)
    as (Hself & Hin & _).
  split; [| split].
  - exact Hself.
  - assert (H2 : 2 <> 4) by discriminate.
    assert (I2 : In 2 [1; 2; 3; 4]) by (simpl; auto).
    destruct (Hin 2 H2 I2) as (Hup & _).
    destruct Hup as [Hup _]; [reflexivity |].
    apply Hup. simpl. lia.
  - assert (H1 : 1 <> 4) by discriminate.
    assert (I1 : In 1 [1; 2; 3; 4]) by (simpl; auto).
    destruct (Hin 1 H1 I1) as (Hup & _).
    destruct Hup as [_ Hup]; [reflexivity |].
    apply Hup. simpl. lia.
Defined.

(** C4, as the code has it: when the positions of the [n] distinct channels
    form the range [0 .. n-1] and the target position is itself in that
    range, they form the range [0 .. n-1] again after the move; this is the
    case of every run of the loop body that finds a channel at rank [i]
    ([len(cat_channels) > i]). *)
Theorem move_channel_dense :
  (forall channels channel category new_pos st,
      NoDup channels -> In channel channels -> dense channels st ->
      0 <= new_pos < Z.of_nat (length channels) ->
      dense channels (move_channel channels channel category new_pos st)) /\
  (forall category_channels channels category i channel st st',
      NoDup channels -> In channel channels -> dense channels st ->
      (forall c, In c (category_channels st category) -> In c channels) ->
      (i < length (category_channels st category))%nat ->
      shuffle_step category_channels channels category i channel st = Returns st' ->
      dense channels st').
Proof.
  split.
  - intros channels channel category new_pos st Hnd Hin Hd Hnew.
    apply move_channel_dense_in_range; try assumption. now destruct Hd.
  - intros category_channels channels category i channel st st'
           Hnd Hin Hd Hsub Hi Hstep.
    unfold shuffle_step, target in Hstep.
    destruct (nth_error (category_channels st category) i) as [t|] eqn:E.
    + simpl in Hstep.
      destruct (negb (category_id (st channel) =? category) || negb (t =? channel)).
      * destruct (nth_error _ i) in Hstep; [| discriminate].
        injection Hstep as <-.
        apply move_channel_dense_in_range; try assumption; [now destruct Hd |].
        apply (proj2 Hd). unfold positions.
        apply (in_map (fun c => position (st c))).
        apply Hsub. eapply nth_error_In, E.
      * now injection Hstep as <-.
    + apply nth_error_None in E. lia.
Qed.

Lemma move_channel_dense_witness :
  dense [1; 2; 3; 4] (move_channel [1; 2; 3; 4] 1 100 2 fruit).
Proof.
  apply (proj1 move_channel_dense).
  - repeat constructor; simpl; intros H; intuition discriminate.
  - simpl. auto.
  - split.
    + repeat constructor; simpl; intros H; intuition discriminate.
    + intros k. simpl. split.
      * intros [<-|[<-|[<-|[<-|[]]]]]; lia.
      * intros Hk.
        assert (k = 0 \/ k = 1 \/ k = 2 \/ k = 3) as [->|[->|[->| ->]]] by lia;
          auto.
  - simpl. lia.
Defined.

(** C4 as stated fails when the loop body appends after the last channel of
    a category ([len(cat_channels) <= i]) while moving down: from [a](0) and
    [z](1) in one category and [m](2) in the next, moving [z] to rank 1 of
    the second category gives the positions 0, 1 and 3 to [a], [m] and [z]. *)
Lemma shuffle_step_leaves_gap :
  let ids := [1; 3; 2] in
  NoDup ids /\ In 2 ids /\ dense ids two_categories /\
  exists st',
    shuffle_step (channels_of ids) ids 200 1 2 two_categories = Returns st' /\
    positions ids st' = [0; 1; 3] /\
    ~ dense ids st'.
Proof.
  cbv zeta. split; [| split; [| split]].
  - repeat constructor; simpl; intros H; intuition discriminate.
  - simpl. auto.
  - split.
    + repeat constructor; simpl; intros H; intuition discriminate.
    + intros k. simpl. split.
      * intros [<-|[<-|[<-|[]]]]; lia.
      * intros Hk.
        assert (k = 0 \/ k = 1 \/ k = 2) as [->|[->| ->]] by lia; auto.
  - eexists. split; [reflexivity |]. split; [reflexivity |].
    intros [_ Hrange]. specialize (Hrange 3). simpl in Hrange.
    destruct Hrange as [Hrange _]. assert (0 <= 3 < 3) by (apply Hrange; auto).
    lia.
Qed.

(** C7: when [channel] is the one found at rank [i] of [category] and is
    already in that category, the loop body changes nothing: the store, and
    with it every position, is as before; and a move whose target position
    is the current one changes no position. *)
Theorem shuffle_step_noop :
  (forall category_channels channels category i channel st,
      nth_error (category_channels st category) i = Some channel ->
      category_id (st channel) = category ->
      shuffle_step category_channels channels category i channel st = Returns st) /\
  (forall channels channel category st c,
      position (move_channel channels channel category (position (st channel)) st c)
      = position (st c)).
Proof.
  split.
  - intros category_channels channels category i channel st Hnth Hcat.
    unfold shuffle_step, target. rewrite Hnth. simpl.
    rewrite Hcat, !Z.eqb_refl. reflexivity.
  - intros channels channel category st c.
    rewrite move_channel_position.
    destruct (Z.eqb_spec c channel) as [->|Hne]; [reflexivity |].
    rewrite Z.gtb_ltb, Z.ltb_irrefl. unfold shift_down.
    rewrite (loop_fixed
               (fun p => (position (st channel) <? p) && (p <=? position (st channel)))
               (fun p => p - 1)); [reflexivity |].
    intros p. split_tests; try reflexivity; lia.
Qed.

Lemma shuffle_step_noop_witness :
  let ids := [1; 2; 3; 4] in
  shuffle_step (channels_of ids) ids 100 1 2 fruit = Returns fruit.
Proof.
  apply (proj1 shuffle_step_noop); reflexivity.
Defined.

(** C8: when no two channels share a position, a move keeps the order of
    every two channels other than the moved one. *)
Theorem move_channel_keeps_order (channels : list Z)
        (channel category new_pos : Z) (st : store) (x y : Z) :
  NoDup channels ->
  NoDup (positions channels st) ->
  In channel channels -> In x channels -> In y channels ->
  x <> channel -> y <> channel ->
  let st' := move_channel channels channel category new_pos st in
  (position (st' x) ?= position (st' y)) = (position (st x) ?= position (st y)).
Proof.
  intros Hnd Hpos Hin Hx Hy Hxc Hyc st'.
  destruct (position_unique channels channel st Hin Hpos x Hx) as [?|Hpx];
    [contradiction |].
  destruct (position_unique channels channel st Hin Hpos y Hy) as [?|Hpy];
    [contradiction |].
  unfold st'. rewrite !move_channel_moved by auto.
  now apply moved_compare.
Qed.

Lemma move_channel_keeps_order_witness :
  let ids := [1; 2; 3; 4] in
  let st' := move_channel ids 1 100 2 fruit in
  (position (st' 2) ?= position (st' 4)) = (position (fruit 2) ?= position (fruit 4)).
Proof.
  apply (move_channel_keeps_order [1; 2; 3; 4] 1 100 2 fruit 2 4);
    try (repeat constructor; simpl; intros H; intuition discriminate);
    try (simpl; auto; fail); discriminate.
Defined.

(** [reposition_channel] changes no position itself: it hands a category and
    a position to [channel.edit], the position of the first other channel
    whose name is greater, or one past the last.  In the four-channel state,
    for Banana that is Cherry's position, and for Date one past Cherry's. *)
Remark reposition_channel_hands_over :
  let ids := [1; 2; 3; 4] in
  reposition_channel (channels_of ids) 2 [100] fruit = (Some 100, 2) /\
  reposition_channel (channels_of ids) 4 [100] fruit = (Some 100, 3).
Proof.
  split; reflexivity.
Qed.

(** ** Part 6: more about the partitioner *)

Section SegmentFacts.

Variable arr : list Z.

Lemma seg_sums_length (D : list nat) :
  forall s, length (seg_sums arr s D) = S (length D).
Proof.
  induction D as [|d D IH]; intros s.
  - reflexivity.
  - rewrite seg_sums_cons. simpl. now rewrite IH.
Qed.

(** The segments from [s] on, cut at weakly increasing dividers up to the
    length of [arr], add up to [sum(arr[s:])]. *)
Lemma seg_sums_total (D : list nat) :
  forall s,
    StronglySorted Nat.le (s :: D) ->
    Forall (fun d => (d <= length arr)%nat) (s :: D) ->
    sum (seg_sums arr s D) = sum (slice arr s (length arr)).
Proof.
  induction D as [|d D IH]; intros s Hs Hall.
  - rewrite seg_sums_nil, sum_cons, sum_nil. lia.
  - rewrite seg_sums_cons, sum_cons.
    apply StronglySorted_inv in Hs. destruct Hs as [Hs Hle].
    inversion Hall as [|? ? Hsn Hall']; subst.
    inversion Hle as [|? ? Hsd _]; subst.
    inversion Hall' as [|? ? Hdn _]; subst.
    rewrite (IH d Hs Hall').
    rewrite (slice_split arr s d (length arr)) by lia.
    now rewrite sum_app.
Qed.

Lemma seg_sums_nonneg (D : list nat) :
  Forall (fun w => 0 <= w) arr ->
  forall s, Forall (fun x => 0 <= x) (seg_sums arr s D).
Proof.
  intros Hnn. induction D as [|d D IH]; intros s.
  - rewrite seg_sums_nil. constructor; [now apply slice_nonneg | constructor].
  - rewrite seg_sums_cons. constructor; [now apply slice_nonneg | apply IH].
Qed.

Lemma slice_all : slice arr 0 (length arr) = arr.
Proof. unfold slice. rewrite Nat.sub_0_r. simpl. apply firstn_all. Qed.

End SegmentFacts.

Lemma score_le_square (l : list Z) :
  Forall (fun x => 0 <= x) l -> score l <= sum l ^ 2.
Proof.
  induction 1 as [|x l Hx Hall IH].
  - rewrite score_nil, sum_nil. lia.
  - rewrite score_cons, sum_cons.
    pose proof (sum_nonneg l Hall). pose proof (score_nonneg l). nia.
Qed.

Lemma sorted_from_zero (D : list nat) :
  StronglySorted Nat.le D -> StronglySorted Nat.le (0%nat :: D).
Proof.
  intros H. constructor; [assumption |].
  apply Forall_forall. intros d _. unfold Nat.le. lia.
Qed.

Lemma sum_div_sum (arr : list Z) (dividers : list nat) :
  StronglySorted Nat.le dividers ->
  Forall (fun d => (d <= length arr)%nat) dividers ->
  sum (sum_div arr dividers) = sum arr.
Proof.
  intros Hs Hall. rewrite sum_div_seg_sums, seg_sums_total.
  - now rewrite slice_all.
  - now apply sorted_from_zero.
  - constructor; [lia | assumption].
Qed.

Lemma strictly_weakly (D : list nat) :
  StronglySorted Nat.lt D -> StronglySorted Nat.le D.
Proof.
  induction 1 as [|d D Hs IH Hall]; constructor; auto.
  eapply Forall_impl; [| exact Hall]. unfold Nat.lt, Nat.le. simpl. lia.
Qed.

Lemma cost_bounds (arr : list Z) (D : list nat) :
  Forall (fun w => 0 <= w) arr ->
  StronglySorted Nat.le D ->
  Forall (fun d => (d <= length arr)%nat) D ->
  0 <= cost arr D <= sum arr ^ 2.
Proof.
  intros Hnn Hs Hall. unfold cost. split; [apply score_nonneg |].
  rewrite <- (sum_div_sum arr D Hs Hall).
  apply score_le_square. rewrite sum_div_seg_sums. now apply seg_sums_nonneg.
Qed.

(** X1: [sum_div] returns one sum per segment, [len(dividers) + 1] of them,
    and for weakly increasing dividers within [0, len(arr)] the sums add up
    to [sum(arr)]: every bucket is counted once. *)
Theorem sum_div_total (arr : list Z) (dividers : list nat) :
  length (sum_div arr dividers) = S (length dividers) /\
  (StronglySorted Nat.le dividers ->
   Forall (fun d => (d <= length arr)%nat) dividers ->
   sum (sum_div arr dividers) = sum arr).
Proof.
  split.
  - rewrite sum_div_seg_sums. apply seg_sums_length.
  - apply sum_div_sum.
Qed.

Lemma sum_div_total_witness :
  sum (sum_div [3; 1; 4; 1; 5] [1%nat; 1%nat; 4%nat]) = sum [3; 1; 4; 1; 5].
Proof.
  apply (proj2 (sum_div_total [3; 1; 4; 1; 5] [1%nat; 1%nat; 4%nat])).
  - repeat constructor.
  - repeat constructor.
Defined.

(** X2: for non-negative weights and weakly increasing dividers within
    [0, len(arr)], the score of the segment sums lies between 0 and the
    square of the total weight. *)
Theorem score_sum_div_bounds (arr : list Z) (dividers : list nat) :
  Forall (fun w => 0 <= w) arr ->
  StronglySorted Nat.le dividers ->
  Forall (fun d => (d <= length arr)%nat) dividers ->
  0 <= score (sum_div arr dividers) <= sum arr ^ 2.
Proof.
  exact (cost_bounds arr dividers).
Qed.

Lemma score_sum_div_bounds_witness :
  0 <= score (sum_div [3; 1; 4; 1; 5] [2%nat; 3%nat]) <= sum [3; 1; 4; 1; 5] ^ 2.
Proof.
  apply (score_sum_div_bounds [3; 1; 4; 1; 5] [2%nat; 3%nat]).
  - repeat constructor; lia.
  - repeat constructor.
  - repeat constructor.
Defined.

Lemma chain_seq (k : nat) :
  forall lo hi, (lo + k <= hi)%nat -> chain lo (seq lo k) hi.
Proof.
  induction k as [|k IH]; intros lo hi H; simpl.
  - exact I.
  - split; [lia |]. apply IH. lia.
Qed.

Lemma chain_short (t : list nat) :
  forall lo hi, chain lo t hi -> (length t <= hi - lo)%nat.
Proof.
  induction t as [|x t IH]; intros lo hi; simpl.
  - lia.
  - intros [Hx Hch]. specialize (IH _ _ Hch). lia.
Qed.

Lemma chain_full (t : list nat) :
  forall lo hi,
    chain lo t hi -> length t = (hi - lo)%nat -> t = seq lo (hi - lo).
Proof.
  induction t as [|x t IH]; intros lo hi Hch Hlen; simpl in *.
  - now rewrite <- Hlen.
  - destruct Hch as [Hx Hch].
    pose proof (chain_short t _ _ Hch) as Hle.
    assert (x = lo) by lia. subst x.
    replace (hi - lo)%nat with (S (hi - S lo)) by lia. simpl. f_equal.
    apply IH; [assumption | lia].
Qed.

Lemma visited_exists (arr : list Z) (num_cats : Z) :
  1 <= num_cats <= Z.of_nat (length arr) + 1 ->
  visited_set (length arr) num_cats (seq 0 (Z.to_nat (num_cats - 1))).
Proof.
  intros H.
  assert (Hch : chain 0 (seq 0 (Z.to_nat (num_cats - 1))) (length arr))
    by (apply chain_seq; lia).
  apply chain_sorted in Hch. destruct Hch as [Hs Hall].
  repeat split.
  - rewrite length_seq. lia.
  - assumption.
  - eapply Forall_impl; [| exact Hall]. simpl. lia.
Qed.

Lemma visited_cost_bounds (arr : list Z) (num_cats : Z) (B : list nat) :
  Forall (fun w => 0 <= w) arr ->
  visited_set (length arr) num_cats B ->
  cost arr B <= sum arr ^ 2.
Proof.
  intros Hnn (_ & Hs & Hall). apply cost_bounds; auto.
  - now apply strictly_weakly.
  - eapply Forall_impl; [| exact Hall]. simpl. lia.
Qed.

(** The result is the lexicographically first boundary set of least cost,
    whenever some boundary set costs less than [maxsize]. *)
Lemma balance_categories_least (arr : list Z) (num_cats : Z) (B0 : list nat) :
  Forall (fun w => 0 <= w) arr ->
  num_cats <= Z.of_nat (length arr) + 1 ->
  boundary_set (length arr) num_cats B0 -> cost arr B0 < maxsize ->
  visited_set (length arr) num_cats (balance_categories arr num_cats) /\
  forall B,
    boundary_set (length arr) num_cats B ->
    cost arr (balance_categories arr num_cats) <= cost arr B /\
    (cost arr B <= cost arr (balance_categories arr num_cats) ->
     B = balance_categories arr num_cats \/
     lex_lt (balance_categories arr num_cats) B).
Proof.
  intros Hnn Hgc HB0 Hc0.
  destruct (boundary_visited arr num_cats B0 Hnn Hgc HB0)
    as (B0' & HB0' & Hc0' & _).
  destruct (balance_categories_first arr num_cats B0' HB0') as [Hr Hfirst];
    [lia |].
  split; [assumption |].
  intros B HB.
  destruct (boundary_visited arr num_cats B Hnn Hgc HB)
    as (B' & HB' & Hc' & Hlex).
  destruct (Hfirst B' HB') as [Hle Hfst].
  split; [lia |].
  intros HBr. destruct Hfst as [->|Hlt]; [lia | |].
  - destruct Hlex as [<-|Hlex]; auto.
  - destruct Hlex as [<-|Hlex]; auto.
    right. eapply lex_lt_trans; eassumption.
Qed.

Lemma balance_categories_small (arr : list Z) (num_cats : Z) :
  Forall (fun w => 0 <= w) arr ->
  1 <= num_cats <= Z.of_nat (length arr) + 1 ->
  sum arr ^ 2 < maxsize ->
  visited_set (length arr) num_cats (balance_categories arr num_cats) /\
  forall B,
    boundary_set (length arr) num_cats B ->
    cost arr (balance_categories arr num_cats) <= cost arr B /\
    (cost arr B <= cost arr (balance_categories arr num_cats) ->
     B = balance_categories arr num_cats \/
     lex_lt (balance_categories arr num_cats) B).
Proof.
  intros Hnn Hgc Hsmall.
  pose proof (visited_exists arr num_cats Hgc) as Hv.
  apply (balance_categories_least arr num_cats _ Hnn (proj2 Hgc)
           (visited_boundary arr num_cats _ Hv)).
  pose proof (visited_cost_bounds arr num_cats _ Hnn Hv). lia.
Qed.

(** X3: for non-negative weights whose total squared is below
    [sys.maxsize] and [1 <= num_cats <= n + 1], [balance_categories] returns
    a strictly increasing list of [num_cats - 1] indices below [n] that has
    the least cost of all boundary sets drawn from [0, n], and is the
    lexicographically first of those of least cost. *)
Theorem balance_categories_small_total (arr : list Z) (num_cats : Z) :
  Forall (fun w => 0 <= w) arr ->
  1 <= num_cats <= Z.of_nat (length arr) + 1 ->
  sum arr ^ 2 < maxsize ->
  visited_set (length arr) num_cats (balance_categories arr num_cats) /\
  forall B,
    boundary_set (length arr) num_cats B ->
    cost arr (balance_categories arr num_cats) <= cost arr B /\
    (cost arr B <= cost arr (balance_categories arr num_cats) ->
     B = balance_categories arr num_cats \/
     lex_lt (balance_categories arr num_cats) B).
Proof.
  exact (balance_categories_small arr num_cats).
Qed.

Lemma balance_categories_small_total_witness :
  let arr := [3; 1; 4; 1; 5; 9; 2; 6] in
  visited_set (length arr) 4 (balance_categories arr 4) /\
  forall B,
    boundary_set (length arr) 4 B ->
    cost arr (balance_categories arr 4) <= cost arr B /\
    (cost arr B <= cost arr (balance_categories arr 4) ->
     B = balance_categories arr 4 \/ lex_lt (balance_categories arr 4) B).
Proof.
  apply (balance_categories_small_total [3; 1; 4; 1; 5; 9; 2; 6] 4).
  - repeat constructor; lia.
  - simpl. lia.
  - reflexivity.
Defined.

(** X4: when no visited candidate scores below [sys.maxsize] (or there is
    none to visit), [balance_categories] returns its initial tuple:
    [num_cats - 1] zeros. *)
Theorem balance_categories_fallback (arr : list Z) (num_cats : Z) :
  (forall B, visited_set (length arr) num_cats B -> maxsize <= cost arr B) ->
  balance_categories arr num_cats = repeat 0%nat (Z.to_nat (num_cats - 1)).
Proof.
  intros Hall.
  destruct (balance_categories_cases arr num_cats)
    as [[Hr _]|(l1 & l2 & HL & Hc & _)]; [assumption |].
  assert (Hr : In (balance_categories arr num_cats)
                  (candidates (num_cats - 1) 0 (length arr))).
  { rewrite HL. apply in_elt. }
  apply visited_candidates in Hr. specialize (Hall _ Hr). lia.
Qed.

Lemma balance_categories_fallback_witness :
  balance_categories [1; 2] 5 = repeat 0%nat (Z.to_nat (5 - 1)).
Proof.
  apply (balance_categories_fallback [1; 2] 5).
  intros B (Hlen & Hs & Hall). exfalso.
  assert (Hch : chain 0 B 2).
  { apply chain_sorted. split; [assumption |].
    eapply Forall_impl; [| exact Hall]. simpl. lia. }
  apply chain_short in Hch. simpl in Hlen. lia.
Defined.

(** X5: whatever the weights, for [num_cats >= 1] the returned dividers cut
    the weights into exactly [num_cats] segments. *)
Theorem balance_categories_segments (arr : list Z) (num_cats : Z) :
  1 <= num_cats ->
  Z.of_nat (length (sum_div arr (balance_categories arr num_cats))) = num_cats.
Proof.
  intros H. rewrite sum_div_seg_sums, seg_sums_length.
  rewrite balance_categories_length. lia.
Qed.

Lemma balance_categories_segments_witness :
  Z.of_nat (length (sum_div [2 ^ 32; 0] (balance_categories [2 ^ 32; 0] 3))) = 3.
Proof.
  apply (balance_categories_segments [2 ^ 32; 0] 3). lia.
Defined.

Section PositiveWeights.

Variable arr : list Z.
Hypothesis arr_positive : Forall (fun w => 0 < w) arr.

Lemma sum_positive (l : list Z) :
  Forall (fun w => 0 < w) l -> l <> [] -> 0 < sum l.
Proof.
  intros Hall Hne. destruct Hall as [|x l Hx Hall]; [contradiction |].
  rewrite sum_cons.
  assert (0 <= sum l).
  { apply sum_nonneg. eapply Forall_impl; [| exact Hall]. simpl. lia. }
  lia.
Qed.

Lemma slice_gen_length (i j : nat) :
  length (slice arr i j) = Nat.min (j - i) (length arr - i).
Proof. unfold slice. now rewrite length_firstn, length_skipn. Qed.

Lemma slice_positive (i j : nat) :
  (i < j)%nat -> (i < length arr)%nat -> 0 < sum (slice arr i j).
Proof.
  intros Hij Hi. apply sum_positive.
  - apply Forall_forall. intros w Hw. rewrite Forall_forall in arr_positive.
    apply arr_positive. unfold slice in Hw. eapply in_skipn, in_firstn, Hw.
  - intros E. pose proof (slice_gen_length i j) as Hlen.
    rewrite E in Hlen. simpl in Hlen. lia.
Qed.

Lemma positive_nonneg : Forall (fun w => 0 <= w) arr.
Proof. eapply Forall_impl; [| exact arr_positive]. simpl. lia. Qed.

(** Cutting a segment into two non-empty parts lowers the cost. *)
Lemma cut_segment_strict (s c e : nat) :
  (s < c < e)%nat -> (e <= length arr)%nat ->
  sum (slice arr s c) ^ 2 + sum (slice arr c e) ^ 2 < sum (slice arr s e) ^ 2.
Proof.
  intros H He. rewrite (slice_split arr s c e) by lia. rewrite sum_app.
  assert (0 < sum (slice arr s c)) by (apply slice_positive; lia).
  assert (0 < sum (slice arr c e)) by (apply slice_positive; lia).
  nia.
Qed.

(** A strictly increasing list that leaves room in [lo, n) can take one more
    boundary there, at a lower cost. *)
Lemma extra_boundary_strict (D : list nat) :
  forall s lo,
    (s < lo)%nat -> chain lo D (length arr) ->
    (length D < length arr - lo)%nat ->
    exists D',
      chain lo D' (length arr) /\ length D' = S (length D) /\
      score (seg_sums arr s D') < score (seg_sums arr s D).
Proof.
  induction D as [|d D IH]; intros s lo Hs Hch Hlen; simpl in *.
  - exists [lo]. simpl. repeat split; try lia.
    rewrite seg_sums_cons, !seg_sums_nil, !score_cons, score_nil.
    pose proof (cut_segment_strict s lo (length arr)). lia.
  - destruct Hch as [Hd Hch].
    destruct (Nat.eq_dec lo d) as [->|Hne].
    + destruct (IH d (S d)) as (D' & Hch' & Hlen' & Hsc);
        try lia; try assumption.
      exists (d :: D'). simpl. repeat split; try lia; try assumption.
      rewrite !seg_sums_cons, !score_cons. lia.
    + exists (lo :: d :: D). simpl. repeat split; try lia; try assumption.
      rewrite !seg_sums_cons, !score_cons.
      pose proof (cut_segment_strict s lo d). lia.
Qed.

Lemma seg_sums_positive (D : list nat) :
  forall s,
    (s < length arr)%nat -> chain (S s) D (length arr) ->
    Forall (fun x => 0 < x) (seg_sums arr s D).
Proof.
  induction D as [|d D IH]; intros s Hs Hch.
  - rewrite seg_sums_nil. constructor; [| constructor].
    apply slice_positive; lia.
  - destruct Hch as [Hd Hch]. rewrite seg_sums_cons. constructor.
    + apply slice_positive; lia.
    + apply IH; [lia | assumption].
Qed.

(** With positive weights and room for it, a least-cost visited set does not
    start at 0. *)
Lemma least_cost_starts_late (num_cats : Z) (r : list nat) :
  num_cats <= Z.of_nat (length arr) ->
  visited_set (length arr) num_cats r ->
  (forall B, visited_set (length arr) num_cats B -> cost arr r <= cost arr B) ->
  chain 1 r (length arr).
Proof.
  intros Hgc Hr Hmin.
  assert (Hch : chain 0 r (length arr)).
  { destruct Hr as (_ & Hs & Hall). apply chain_sorted. split; [assumption |].
    eapply Forall_impl; [| exact Hall]. simpl. lia. }
  destruct r as [|x D]; [exact I |].
  destruct Hch as [Hx Hch]. destruct (Nat.eq_dec x 0) as [->|Hne].
  - exfalso. destruct Hr as (Hlen & _). simpl in Hlen.
    destruct (extra_boundary_strict D 0%nat 1%nat) as (D' & Hch' & Hlen' & Hsc);
      try lia; try assumption.
    assert (HD' : visited_set (length arr) num_cats D').
    { apply chain_sorted in Hch'. destruct Hch' as [Hs' Hall'].
      repeat split; [lia | assumption |].
      eapply Forall_impl; [| exact Hall']. simpl. lia. }
    specialize (Hmin D' HD'). unfold cost in Hmin.
    rewrite !sum_div_seg_sums, seg_sums_cons, score_cons in Hmin.
    rewrite slice_empty, sum_nil in Hmin. lia.
  - split; [lia | assumption].
Qed.

End PositiveWeights.

(** X6: for positive weights whose total squared is below [sys.maxsize] and
    [1 <= num_cats <= n], every returned divider lies in [1, n - 1] and every
    one of the [num_cats] segments has a positive sum: no group is left
    empty. *)
Theorem balance_categories_no_empty_group (arr : list Z) (num_cats : Z) :
  Forall (fun w => 0 < w) arr ->
  1 <= num_cats <= Z.of_nat (length arr) ->
  sum arr ^ 2 < maxsize ->
  Forall (fun b => (1 <= b <= length arr - 1)%nat) (balance_categories arr num_cats) /\
  Forall (fun s => 0 < s) (sum_div arr (balance_categories arr num_cats)).
Proof.
  intros Hpos Hgc Hsmall.
  pose proof (positive_nonneg arr Hpos) as Hnn.
  destruct (balance_categories_small arr num_cats Hnn) as [Hr Hmin];
    [lia | assumption |].
  assert (Hch : chain 1 (balance_categories arr num_cats) (length arr)).
  { apply (least_cost_starts_late arr Hpos num_cats); [lia | assumption |].
    intros B HB. apply Hmin. now apply visited_boundary. }
  split.
  - apply chain_sorted in Hch. destruct Hch as [_ Hall].
    eapply Forall_impl; [| exact Hall]. simpl. lia.
  - rewrite sum_div_seg_sums. apply seg_sums_positive; [assumption | lia | assumption].
Qed.

Lemma balance_categories_no_empty_group_witness :
  let arr := [3; 1; 4; 1; 5; 9; 2; 6] in
  Forall (fun b => (1 <= b <= length arr - 1)%nat) (balance_categories arr 4) /\
  Forall (fun s => 0 < s) (sum_div arr (balance_categories arr 4)).
Proof.
  apply (balance_categories_no_empty_group [3; 1; 4; 1; 5; 9; 2; 6] 4).
  - repeat constructor; lia.
  - simpl. lia.
  - reflexivity.
Defined.

Lemma seg_sums_singletons (arr : list Z) (k : nat) :
  forall s,
    (s + k = length arr)%nat -> (1 <= k)%nat ->
    seg_sums arr s (seq (S s) (k - 1)) = skipn s arr.
Proof.
  induction k as [|k IH]; intros s Hs Hk; [lia |].
  destruct k as [|k].
  - simpl. rewrite seg_sums_nil. unfold slice.
    replace (length arr - s)%nat with 1%nat by lia.
    destruct (skipn s arr) as [|x [|y l]] eqn:E.
    + apply (f_equal (@length Z)) in E. rewrite length_skipn in E. simpl in E. lia.
    + simpl. now rewrite sum_cons, sum_nil, Z.add_0_r.
    + apply (f_equal (@length Z)) in E. rewrite length_skipn in E. simpl in E. lia.
  - replace (S (S k) - 1)%nat with (S k) by lia. simpl seq.
    rewrite seg_sums_cons.
    replace (S k) with (S k - 1 + 1)%nat at 1 by lia.
    replace (seq (S (S s)) k) with (seq (S (S s)) (S k - 1))
      by (f_equal; lia).
    rewrite (IH (S s)) by lia.
    unfold slice. replace (S s - s)%nat with 1%nat by lia.
    destruct (skipn s arr) as [|x l] eqn:E.
    + apply (f_equal (@length Z)) in E. rewrite length_skipn in E. simpl in E. lia.
    + assert (Hl : skipn (S s) arr = l).
      { change (S s) with (1 + s)%nat. rewrite <- skipn_skipn, E. reflexivity. }
      rewrite Hl. cbn [firstn]. now rewrite sum_cons, sum_nil, Z.add_0_r.
Qed.

(** X7: with one more group than buckets ([num_cats = n + 1]) and
    non-negative weights whose total squared is below [sys.maxsize], the
    dividers are [0, 1, ..., n - 1]: the first group is empty and every other
    group is one bucket. *)
Theorem balance_categories_one_per_bucket (arr : list Z) :
  Forall (fun w => 0 <= w) arr ->
  sum arr ^ 2 < maxsize ->
  balance_categories arr (Z.of_nat (length arr) + 1) = seq 0 (length arr) /\
  sum_div arr (balance_categories arr (Z.of_nat (length arr) + 1)) = 0 :: arr.
Proof.
  intros Hnn Hsmall.
  destruct (balance_categories_small arr (Z.of_nat (length arr) + 1) Hnn)
    as [(Hlen & Hs & Hall) _]; [lia | assumption |].
  assert (Hr : balance_categories arr (Z.of_nat (length arr) + 1)
               = seq 0 (length arr)).
  { rewrite <- (Nat.sub_0_r (length arr)) at 2. apply chain_full; [| lia].
    apply chain_sorted. split; [assumption |].
    eapply Forall_impl; [| exact Hall]. simpl. lia. }
  split; [assumption |]. rewrite Hr.
  destruct arr as [|x l] eqn:E; [reflexivity |].
  rewrite <- E. rewrite sum_div_seg_sums.
  replace (length arr) with (S (length arr - 1)) at 1 by (subst; simpl; lia).
  simpl seq. rewrite seg_sums_cons, slice_empty, sum_nil. f_equal.
  rewrite (seg_sums_singletons arr (length arr) 0%nat); [reflexivity | lia |].
  subst. simpl. lia.
Qed.

Lemma balance_categories_one_per_bucket_witness :
  balance_categories [5; 3; 3] (Z.of_nat (length [5; 3; 3]) + 1)
  = seq 0 (length [5; 3; 3]) /\
  sum_div [5; 3; 3] (balance_categories [5; 3; 3] (Z.of_nat (length [5; 3; 3]) + 1))
  = 0 :: [5; 3; 3].
Proof.
  apply (balance_categories_one_per_bucket [5; 3; 3]).
  - repeat constructor; lia.
  - reflexivity.
Defined.

(** ** Part 7: more about the position shuffle *)

Section FrameFacts.

Lemma name_set_position (c c' p : Z) (st : store) :
  name (set_position c p st c') = name (st c').
Proof.
  unfold set_position. destruct (Z.eqb_spec c' c); [now subst | reflexivity].
Qed.

Lemma name_set_category_id (c c' cat : Z) (st : store) :
  name (set_category_id c cat st c') = name (st c').
Proof.
  unfold set_category_id. destruct (Z.eqb_spec c' c); [now subst | reflexivity].
Qed.

Lemma category_id_set_category_id (c c' cat : Z) (st : store) :
  category_id (set_category_id c cat st c') =
  if c' =? c then cat else category_id (st c').
Proof. unfold set_category_id. now destruct (c' =? c). Qed.

(** A loop that only assigns positions leaves names and categories alone. *)
Lemma loop_frame (cond : Z -> bool) (f : Z -> Z) (channels : list Z) :
  forall (st : store) (c : Z),
    name
      (fold_left
         (fun st0 other_channel =>
            let p := position (st0 other_channel) in
            if cond p then set_position other_channel (f p) st0 else st0)
         channels st c) = name (st c) /\
    category_id
      (fold_left
         (fun st0 other_channel =>
            let p := position (st0 other_channel) in
            if cond p then set_position other_channel (f p) st0 else st0)
         channels st c) = category_id (st c).
Proof.
  set (F := fun (st0 : store) (other_channel : Z) =>
              let p := position (st0 other_channel) in
              if cond p then set_position other_channel (f p) st0 else st0).
  induction channels as [|x l IH]; intros st c.
  - simpl. auto.
  - change (fold_left F (x :: l) st) with (fold_left F l (F st x)).
    destruct (IH (F st x) c) as [Hn Hc].
    split; (etransitivity; [first [exact Hn | exact Hc] |]);
      unfold F; cbv zeta;
      destruct (cond (position (st x)));
      rewrite ?name_set_position, ?category_id_set_position; reflexivity.
Qed.

Lemma move_channel_frame (channels : list Z) (channel category new_pos : Z)
      (st : store) (c : Z) :
  name (move_channel channels channel category new_pos st c) = name (st c) /\
  category_id (move_channel channels channel category new_pos st c) =
  if c =? channel then category else category_id (st c).
Proof.
  unfold move_channel. cbv zeta.
  rewrite name_set_position, name_set_category_id.
  rewrite category_id_set_position, category_id_set_category_id.
  destruct (position (st channel) >? new_pos).
  - destruct (loop_frame (fun p => (new_pos <=? p) && (p <? position (st channel)))
                         (fun p => p + 1) channels st c) as [Hn Hc].
    unfold shift_up. split; [exact Hn |].
    destruct (c =? channel); [reflexivity | exact Hc].
  - destruct (loop_frame (fun p => (position (st channel) <? p) && (p <=? new_pos))
                         (fun p => p - 1) channels st c) as [Hn Hc].
    unfold shift_down. split; [exact Hn |].
    destruct (c =? channel); [reflexivity | exact Hc].
Qed.

Lemma move_channel_nodup (channels : list Z) (channel category new_pos : Z)
      (st : store) :
  NoDup channels -> In channel channels ->
  NoDup (positions channels st) ->
  NoDup (positions channels (move_channel channels channel category new_pos st)).
Proof.
  intros Hnd Hin Hpos. rewrite positions_move_channel by assumption.
  apply NoDup_map_on; [| assumption].
  intros a b _ _. apply moved_injective.
Qed.

End FrameFacts.

(** X8: whatever the target position, a move over distinct channels whose
    positions are pairwise distinct leaves the positions pairwise distinct:
    the shifts never put two channels on one slot. *)
Theorem move_channel_distinct (channels : list Z)
        (channel category new_pos : Z) (st : store) :
  NoDup channels -> In channel channels ->
  NoDup (positions channels st) ->
  NoDup (positions channels (move_channel channels channel category new_pos st)).
Proof.
  exact (move_channel_nodup channels channel category new_pos st).
Qed.

Lemma move_channel_distinct_witness :
  NoDup (positions [1; 3; 2] (move_channel [1; 3; 2] 2 200 3 two_categories)).
Proof.
  apply (move_channel_distinct [1; 3; 2] 2 200 3 two_categories).
  - repeat constructor; simpl; intros H; intuition discriminate.
  - simpl. auto.
  - repeat constructor; simpl; intros H; intuition discriminate.
Defined.

(** X9: a move renames nobody and changes the category of the moved channel
    only, which becomes the target category. *)
Theorem move_channel_touches (channels : list Z)
        (channel category new_pos : Z) (st : store) (c : Z) :
  name (move_channel channels channel category new_pos st c) = name (st c) /\
  category_id (move_channel channels channel category new_pos st c) =
  if c =? channel then category else category_id (st c).
Proof.
  exact (move_channel_frame channels channel category new_pos st c).
Qed.

Section StepFacts.

Variable category_channels : store -> Z -> list Z.
Variable channels : list Z.
Variable category : Z.

(** What a returning run of the loop body did: nothing, or one move to the
    target position. *)
Lemma shuffle_step_returns (i : nat) (channel : Z) (st st' : store) :
  shuffle_step category_channels channels category i channel st = Returns st' ->
  exists new_pos needs_move,
    target (category_channels st category) i channel st
    = Returns (new_pos, needs_move) /\
    ((negb (category_id (st channel) =? category) || needs_move = true /\
      st' = move_channel channels channel category new_pos st) \/
     (negb (category_id (st channel) =? category) || needs_move = false /\
      st' = st)).
Proof.
  unfold shuffle_step.
  destruct (target (category_channels st category) i channel st)
    as [[new_pos needs_move]|e]; simpl; [| discriminate].
  intros H. exists new_pos, needs_move. split; [reflexivity |].
  destruct (negb (category_id (st channel) =? category) || needs_move).
  - left. split; [reflexivity |].
    destruct (nth_error _ i) in H; [| discriminate]. now injection H as <-.
  - right. split; [reflexivity |]. now injection H as <-.
Qed.

Lemma shuffle_step_nodup (i : nat) (channel : Z) (st st' : store) :
  NoDup channels -> In channel channels ->
  NoDup (positions channels st) ->
  shuffle_step category_channels channels category i channel st = Returns st' ->
  NoDup (positions channels st').
Proof.
  intros Hnd Hin Hpos Hstep.
  destruct (shuffle_step_returns i channel st st' Hstep)
    as (new_pos & needs_move & _ & [[_ ->]|[_ ->]]).
  - now apply move_channel_nodup.
  - assumption.
Qed.

Lemma shuffle_step_names (i : nat) (channel : Z) (st st' : store) :
  shuffle_step category_channels channels category i channel st = Returns st' ->
  forall c, name (st' c) = name (st c).
Proof.
  intros Hstep c.
  destruct (shuffle_step_returns i channel st st' Hstep)
    as (new_pos & needs_move & _ & [[_ ->]|[_ ->]]).
  - apply move_channel_frame.
  - reflexivity.
Qed.

End StepFacts.

(** X10: the loop body of [sort] raises [IndexError] when the category has
    no channel at all, whatever the rank and the channel: [cat_channels[-1]]
    is read from an empty list. *)
Theorem shuffle_step_empty_category
        (category_channels : store -> Z -> list Z) (channels : list Z)
        (category : Z) (i : nat) (channel : Z) (st : store) :
  category_channels st category = [] ->
  shuffle_step category_channels channels category i channel st
  = Raises IndexError.
Proof.
  intros H. unfold shuffle_step, target. rewrite H.
  destruct i; reflexivity.
Qed.

Lemma shuffle_step_empty_category_witness :
  shuffle_step (channels_of [1; 2; 3]) [1; 3; 2] 300 0 1 two_categories
  = Raises IndexError.
Proof.
  apply (shuffle_step_empty_category (channels_of [1; 2; 3])). reflexivity.
Defined.

(** X11: when the loop body returns, the channel is in the category, no
    channel has been renamed and no other channel has changed category. *)
Theorem shuffle_step_puts_in_category
        (category_channels : store -> Z -> list Z) (channels : list Z)
        (category : Z) (i : nat) (channel : Z) (st st' : store) :
  shuffle_step category_channels channels category i channel st = Returns st' ->
  category_id (st' channel) = category /\
  (forall c, name (st' c) = name (st c)) /\
  (forall c, c <> channel -> category_id (st' c) = category_id (st c)).
Proof.
  intros Hstep.
  destruct (shuffle_step_returns _ _ _ i channel st st' Hstep)
    as (new_pos & needs_move & Ht & [[_ ->]|[Hguard ->]]).
  - repeat split.
    + rewrite (proj2 (move_channel_frame channels channel category new_pos st channel)).
      now rewrite Z.eqb_refl.
    + intros c. apply move_channel_frame.
    + intros c Hc.
      rewrite (proj2 (move_channel_frame channels channel category new_pos st c)).
      destruct (Z.eqb_spec c channel); [contradiction | reflexivity].
  - apply orb_false_elim in Hguard. destruct Hguard as [Hcat _].
    apply negb_false_iff, Z.eqb_eq in Hcat. repeat split; auto.
Qed.

Lemma shuffle_step_puts_in_category_witness :
  exists st',
    shuffle_step (channels_of [1; 2; 3]) [1; 3; 2] 200 1 2 two_categories
    = Returns st' /\
    category_id (st' 2) = 200 /\
    (forall c, name (st' c) = name (two_categories c)) /\
    (forall c, c <> 2 -> category_id (st' c) = category_id (two_categories c)).
Proof.
  eexists. split; [reflexivity |].
  apply (shuffle_step_puts_in_category (channels_of [1; 2; 3]) [1; 3; 2] 200 1 2).
  reflexivity.
Defined.

(** X12: when a channel [t] other than [channel] holds rank [i] of the
    category and the loop body returns, [channel] takes the position [t]
    had; [t] goes one slot further when [channel] came from a larger
    position (so [channel] is right before it), one slot back when it came
    from a smaller one (so [channel] is right after it). *)
Theorem shuffle_step_takes_slot
        (category_channels : store -> Z -> list Z) (channels : list Z)
        (category : Z) (i : nat) (channel t : Z) (st st' : store) :
  NoDup channels -> In t channels -> t <> channel ->
  nth_error (category_channels st category) i = Some t ->
  shuffle_step category_channels channels category i channel st = Returns st' ->
  position (st' channel) = position (st t) /\
  (position (st t) < position (st channel) ->
   position (st' t) = position (st t) + 1) /\
  (position (st channel) < position (st t) ->
   position (st' t) = position (st t) - 1).
Proof.
  intros Hnd Hin Hne Hnth Hstep.
  destruct (shuffle_step_returns _ _ _ i channel st st' Hstep)
    as (new_pos & needs_move & Ht & Hcase).
  unfold target in Ht. rewrite Hnth in Ht. injection Ht as <- <-.
  destruct Hcase as [[_ ->]|[Hguard _]].
  - rewrite !move_channel_position, Z.eqb_refl.
    destruct (Z.eqb_spec t channel); [contradiction |].
    repeat split.
    + intros Hlt. rewrite (proj2 (Z.gtb_lt _ _)) by lia.
      rewrite shift_up_position by assumption.
      destruct (in_dec Z.eq_dec t channels); [| contradiction].
      split_tests; lia.
    + intros Hlt. destruct (Z.gtb_spec (position (st channel)) (position (st t)));
        [lia |].
      rewrite shift_down_position by assumption.
      destruct (in_dec Z.eq_dec t channels); [| contradiction].
      split_tests; lia.
  - apply orb_false_elim in Hguard. destruct Hguard as [_ Hmove].
    apply negb_false_iff, negb_false_iff in Hmove.
    destruct (Z.eqb_spec t channel); [contradiction | discriminate].
Qed.

Lemma shuffle_step_takes_slot_witness :
  exists st',
    shuffle_step (channels_of [1; 2; 3; 4]) [1; 2; 3; 4] 100 2 1 fruit
    = Returns st' /\
    position (st' 1) = position (fruit 3) /\
    (position (fruit 3) < position (fruit 1) ->
     position (st' 3) = position (fruit 3) + 1) /\
    (position (fruit 1) < position (fruit 3) ->
     position (st' 3) = position (fruit 3) - 1).
Proof.
  eexists. split; [reflexivity |].
  apply (shuffle_step_takes_slot (channels_of [1; 2; 3; 4]) [1; 2; 3; 4] 100 2 1 3).
  - repeat constructor; simpl; intros H; intuition discriminate.
  - simpl. auto.
  - discriminate.
  - reflexivity.
  - reflexivity.
Defined.



Section LoopFacts.

Variable category_channels : store -> Z -> list Z.
Variable channels : list Z.

Lemma fold_raises {X : Type} (g : outcome store -> X -> outcome store)
      (l : list X) (e : exception) :
  (forall x, g (Raises e) x = Raises e) ->
  fold_left g l (Raises e) = Raises e.
Proof.
  intros Hg. induction l as [|x l IH]; simpl; [reflexivity |].
  now rewrite Hg.
Qed.

Lemma shuffle_step_categories (category : Z) (i : nat) (channel : Z)
      (st st' : store) :
  shuffle_step category_channels channels category i channel st = Returns st' ->
  category_id (st' channel) = category /\
  forall c, c <> channel -> category_id (st' c) = category_id (st c).
Proof.
  intros Hstep.
  destruct (shuffle_step_returns _ _ _ i channel st st' Hstep)
    as (new_pos & needs_move & Ht & [[_ ->]|[Hguard ->]]).
  - split.
    + rewrite (proj2 (move_channel_frame channels channel category new_pos st channel)).
      now rewrite Z.eqb_refl.
    + intros c Hc.
      rewrite (proj2 (move_channel_frame channels channel category new_pos st c)).
      destruct (Z.eqb_spec c channel); [contradiction | reflexivity].
  - apply orb_false_elim in Hguard. destruct Hguard as [Hcat _].
    apply negb_false_iff, Z.eqb_eq in Hcat. auto.
Qed.

Lemma run_steps_cons (category : Z) (i : nat) (c : Z) (l : list (nat * Z))
      (st : store) :
  run_steps category_channels channels category ((i, c) :: l) (Returns st) =
  run_steps category_channels channels category l (shuffle_step category_channels channels category i c st).
Proof. reflexivity. Qed.

Lemma run_steps_raises (category : Z) (l : list (nat * Z)) (e : exception) :
  run_steps category_channels channels category l (Raises e) = Raises e.
Proof.
  unfold run_steps. apply fold_raises. intros [i c]. reflexivity.
Qed.

Lemma run_steps_invariant (P : store -> Prop) (category : Z)
      (l : list (nat * Z)) :
  (forall i c st st',
      In (i, c) l -> P st ->
      shuffle_step category_channels channels category i c st = Returns st' ->
      P st') ->
  forall st st',
    P st -> run_steps category_channels channels category l (Returns st) = Returns st' -> P st'.
Proof.
  induction l as [|[i c] l IH]; intros Hstep st st' HP Hrun.
  - simpl in Hrun. now injection Hrun as <-.
  - rewrite run_steps_cons in Hrun.
    destruct (shuffle_step category_channels channels category i c st)
      as [st1|e] eqn:E.
    + apply (IH (fun i' c' s s' Hin => Hstep i' c' s s' (or_intror Hin)) st1 st').
      * apply (Hstep i c st st1); [now left | assumption | assumption].
      * assumption.
    + rewrite run_steps_raises in Hrun. discriminate.
Qed.

Lemma run_steps_categories (category : Z) (l : list (nat * Z)) :
  forall st st',
    run_steps category_channels channels category l (Returns st) = Returns st' ->
    (forall c, In c (map snd l) -> category_id (st' c) = category) /\
    (forall c, ~ In c (map snd l) -> category_id (st' c) = category_id (st c)).
Proof.
  induction l as [|[i c0] l IH]; intros st st' Hrun.
  - simpl in Hrun. injection Hrun as <-. split; [intros c [] | auto].
  - rewrite run_steps_cons in Hrun.
    destruct (shuffle_step category_channels channels category i c0 st)
      as [st1|e] eqn:E; [| rewrite run_steps_raises in Hrun; discriminate].
    destruct (shuffle_step_categories category i c0 st st1 E) as [Hc0 Hother].
    destruct (IH st1 st' Hrun) as [Hin Hout].
    split.
    + intros c [<-|Hc]; simpl in *.
      * destruct (in_dec Z.eq_dec c0 (map snd l)) as [Hl|Hl].
        -- now apply Hin.
        -- rewrite (Hout c0 Hl). assumption.
      * now apply Hin.
    + intros c Hc. simpl in Hc.
      rewrite (Hout c) by tauto. apply Hother. intros ->. tauto.
Qed.

Lemma shuffle_category_run (category : Z) (wanted : list Z) (st : store) :
  shuffle_category category_channels channels category wanted st =
  run_steps category_channels channels category (combine (seq 0 (length wanted)) wanted) (Returns st).
Proof. reflexivity. Qed.

Lemma combine_seq_snd (wanted : list Z) (k : nat) :
  map snd (combine (seq k (length wanted)) wanted) = wanted.
Proof.
  revert k. induction wanted as [|c l IH]; intros k; simpl.
  - reflexivity.
  - now rewrite IH.
Qed.

Lemma run_categories_raises (wanted : Z -> list Z) (categories : list Z)
      (e : exception) :
  run_categories category_channels channels wanted categories (Raises e) = Raises e.
Proof. unfold run_categories. apply fold_raises. reflexivity. Qed.

Lemma run_categories_invariant (P : store -> Prop) (wanted : Z -> list Z)
      (categories : list Z) :
  (forall category i c st st',
      In category categories -> In c (wanted category) -> P st ->
      shuffle_step category_channels channels category i c st = Returns st' ->
      P st') ->
  forall st st',
    P st -> run_categories category_channels channels wanted categories (Returns st) = Returns st' -> P st'.
Proof.
  induction categories as [|cat l IH]; intros Hstep st st' HP Hrun.
  - simpl in Hrun. now injection Hrun as <-.
  - simpl in Hrun.
    destruct (shuffle_category category_channels channels cat (wanted cat) st)
      as [st1|e] eqn:E; [| rewrite run_categories_raises in Hrun; discriminate].
    apply (IH (fun category i c s s' Hin =>
                 Hstep category i c s s' (or_intror Hin)) st1 st');
      [| assumption].
    rewrite shuffle_category_run in E.
    apply (run_steps_invariant P cat _
             (fun i c s s' Hin =>
                Hstep cat i c s s' (or_introl eq_refl)
                      (in_combine_r _ _ _ _ Hin)) st st1 HP E).
Qed.

Lemma run_categories_categories (wanted : Z -> list Z) (categories : list Z) :
  (forall cat1 cat2 c,
      In cat1 categories -> In cat2 categories ->
      In c (wanted cat1) -> In c (wanted cat2) -> cat1 = cat2) ->
  forall st st',
    run_categories category_channels channels wanted categories (Returns st) = Returns st' ->
    (forall cat c, In cat categories -> In c (wanted cat) ->
                   category_id (st' c) = cat) /\
    (forall c, ~ In c (flat_map wanted categories) ->
               category_id (st' c) = category_id (st c)).
Proof.
  induction categories as [|cat l IH]; intros Huniq st st' Hrun.
  - simpl in Hrun. injection Hrun as <-. split; [intros cat c [] | auto].
  - simpl in Hrun.
    destruct (shuffle_category category_channels channels cat (wanted cat) st)
      as [st1|e] eqn:E; [| rewrite run_categories_raises in Hrun; discriminate].
    rewrite shuffle_category_run in E.
    apply run_steps_categories in E. rewrite combine_seq_snd in E.
    destruct E as [Hin1 Hout1].
    destruct (IH (fun c1 c2 c H1 H2 =>
                    Huniq c1 c2 c (or_intror H1) (or_intror H2)) st1 st' Hrun)
      as [Hin Hout].
    split.
    + intros cat' c [<-|Hcat'] Hc.
      * destruct (in_dec Z.eq_dec c (flat_map wanted l)) as [Hl|Hl].
        -- apply in_flat_map in Hl. destruct Hl as (cat2 & Hcat2 & Hc2).
           rewrite (Huniq cat cat2 c) by (simpl; auto). now apply Hin.
        -- rewrite (Hout c Hl). now apply Hin1.
      * now apply Hin.
    + intros c Hc. simpl in Hc. rewrite in_app_iff in Hc.
      rewrite (Hout c) by tauto. apply Hout1. tauto.
Qed.

End LoopFacts.

(** X14: when the whole shuffle loop of [sort] returns and no channel is
    wanted by two categories, every wanted channel is in the category that
    wants it, and every channel no category wants is in the category it was
    in. *)
Theorem shuffle_sorts_into_categories
        (category_channels : store -> Z -> list Z) (channels categories : list Z)
        (wanted : Z -> list Z) (st st' : store) :
  (forall cat1 cat2 c,
      In cat1 categories -> In cat2 categories ->
      In c (wanted cat1) -> In c (wanted cat2) -> cat1 = cat2) ->
  shuffle category_channels channels categories wanted st = Returns st' ->
  (forall cat c, In cat categories -> In c (wanted cat) ->
                 category_id (st' c) = cat) /\
  (forall c, ~ In c (flat_map wanted categories) ->
             category_id (st' c) = category_id (st c)).
Proof.
  intros Huniq Hrun.
  exact (run_categories_categories category_channels channels wanted categories
           Huniq st st' Hrun).
Qed.

Lemma shuffle_sorts_into_categories_witness :
  exists st',
    shuffle (channels_of [1; 2; 3]) [1; 3; 2] [100; 200]
            (fun c => if c =? 100 then [1] else [3; 2]) two_categories
    = Returns st' /\
    (forall cat c, In cat [100; 200] ->
                   In c ((fun c => if c =? 100 then [1] else [3; 2]) cat) ->
                   category_id (st' c) = cat) /\
    (forall c, ~ In c (flat_map (fun c => if c =? 100 then [1] else [3; 2])
                                [100; 200]) ->
               category_id (st' c) = category_id (two_categories c)).
Proof.
  eexists. split; [reflexivity |].
  apply (shuffle_sorts_into_categories (channels_of [1; 2; 3]) [1; 3; 2]
           [100; 200] (fun c => if c =? 100 then [1] else [3; 2])).
  - intros cat1 cat2 c [<-|[<-|[]]] [<-|[<-|[]]]; simpl; intuition lia.
  - reflexivity.
Defined.

(** X15: when the whole shuffle loop of [sort] returns, over distinct
    channels with pairwise distinct positions that include every wanted one,
    the positions are still pairwise distinct and no channel has been
    renamed. *)
Theorem shuffle_keeps_distinct
        (category_channels : store -> Z -> list Z) (channels categories : list Z)
        (wanted : Z -> list Z) (st st' : store) :
  NoDup channels ->
  (forall cat c, In cat categories -> In c (wanted cat) -> In c channels) ->
  NoDup (positions channels st) ->
  shuffle category_channels channels categories wanted st = Returns st' ->
  NoDup (positions channels st') /\ forall c, name (st' c) = name (st c).
Proof.
  intros Hnd Hsub Hpos Hrun.
  apply (run_categories_invariant category_channels channels
           (fun s => NoDup (positions channels s) /\
                     forall c, name (s c) = name (st c))
           wanted categories) with (st := st); [| auto | exact Hrun].
  intros category i c s s' Hcat Hc [Hp Hn] Hstep. split.
  - eapply shuffle_step_nodup; eauto.
  - intros c'. rewrite (shuffle_step_names _ _ _ _ _ _ _ Hstep c'). apply Hn.
Qed.

Lemma shuffle_keeps_distinct_witness :
  exists st',
    shuffle (channels_of [1; 2; 3]) [1; 3; 2] [100; 200]
            (fun c => if c =? 100 then [1] else [3; 2]) two_categories
    = Returns st' /\
    NoDup (positions [1; 3; 2] st') /\
    forall c, name (st' c) = name (two_categories c).
Proof.
  eexists. split; [reflexivity |].
  apply (shuffle_keeps_distinct (channels_of [1; 2; 3]) [1; 3; 2]
           [100; 200] (fun c => if c =? 100 then [1] else [3; 2])).
  - repeat constructor; simpl; intros H; intuition discriminate.
  - intros cat c [<-|[<-|[]]]; simpl; intuition.
  - repeat constructor; simpl; intros H; intuition discriminate.
  - reflexivity.
Defined.

(** ** Part 8: facts about [reposition_channel] *)

Section StringOrder.

Lemma ascii_compare_refl (a : Ascii.ascii) : Ascii.compare a a = Eq.
Proof. unfold Ascii.compare. apply N.compare_refl. Qed.

Lemma ascii_compare_lt_trans (a b c : Ascii.ascii) :
  Ascii.compare a b = Lt -> Ascii.compare b c = Lt -> Ascii.compare a c = Lt.
Proof.
  unfold Ascii.compare. rewrite !N.compare_lt_iff. apply N.lt_trans.
Qed.

Lemma string_compare_refl (s : string) : String.compare s s = Eq.
Proof.
  induction s as [|a s IH]; simpl; [reflexivity |].
  now rewrite ascii_compare_refl.
Qed.

Lemma string_compare_lt_trans (s1 : string) :
  forall s2 s3,
    String.compare s1 s2 = Lt -> String.compare s2 s3 = Lt ->
    String.compare s1 s3 = Lt.
Proof.
  induction s1 as [|a s1 IH]; intros [|b s2] [|c s3]; simpl;
    try discriminate; try reflexivity.
  destruct (Ascii.compare a b) eqn:Eab; try discriminate;
    destruct (Ascii.compare b c) eqn:Ebc; try discriminate; intros H1 H2.
  - apply Ascii.compare_eq_iff in Eab, Ebc. subst.
    rewrite ascii_compare_refl. eapply IH; eassumption.
  - apply Ascii.compare_eq_iff in Eab. subst. now rewrite Ebc.
  - apply Ascii.compare_eq_iff in Ebc. subst. now rewrite Eab.
  - now rewrite (ascii_compare_lt_trans a b c Eab Ebc).
Qed.

Lemma string_leb_refl (s : string) : String.leb s s = true.
Proof. unfold String.leb. now rewrite string_compare_refl. Qed.

Lemma string_leb_trans (s1 s2 s3 : string) :
  String.leb s1 s2 = true -> String.leb s2 s3 = true -> String.leb s1 s3 = true.
Proof.
  unfold String.leb.
  destruct (String.compare s1 s2) eqn:E12; try discriminate;
    destruct (String.compare s2 s3) eqn:E23; try discriminate; intros _ _.
  - apply String.compare_eq_iff in E12, E23. subst.
    now rewrite string_compare_refl.
  - apply String.compare_eq_iff in E12. subst. now rewrite E23.
  - apply String.compare_eq_iff in E23. subst. now rewrite E12.
  - now rewrite (string_compare_lt_trans s1 s2 s3 E12 E23).
Qed.

Lemma string_ltb_leb_trans (s1 s2 s3 : string) :
  String.ltb s1 s2 = true -> String.leb s2 s3 = true -> String.ltb s1 s3 = true.
Proof.
  unfold String.ltb, String.leb.
  destruct (String.compare s1 s2) eqn:E12; try discriminate;
    destruct (String.compare s2 s3) eqn:E23; try discriminate; intros _ _.
  - apply String.compare_eq_iff in E23. subst. now rewrite E12.
  - now rewrite (string_compare_lt_trans s1 s2 s3 E12 E23).
Qed.

Lemma string_leb_false (s1 s2 : string) :
  String.leb s1 s2 = false -> String.leb s2 s1 = true.
Proof.
  intros H. destruct (String.leb_total s1 s2) as [H'|H']; congruence.
Qed.

End StringOrder.

Section SortedByName.

Variable st : store.

Lemma insert_by_name_in (c x : Z) (l : list Z) :
  In x (insert_by_name st c l) <-> x = c \/ In x l.
Proof.
  induction l as [|y l IH]; simpl.
  - intuition.
  - destruct (String.leb (name (st c)) (name (st y))); simpl.
    + intuition.
    + rewrite IH. intuition.
Qed.

Lemma sorted_by_name_in (x : Z) (l : list Z) :
  In x (sorted_by_name st l) <-> In x l.
Proof.
  induction l as [|c l IH]; simpl.
  - tauto.
  - rewrite insert_by_name_in, IH. intuition.
Qed.

Lemma insert_by_name_sorted (c : Z) (l : list Z) :
  StronglySorted (name_le st) l ->
  StronglySorted (name_le st) (insert_by_name st c l).
Proof.
  induction 1 as [|y l Hs IH Hall]; simpl.
  - repeat constructor.
  - destruct (String.leb (name (st c)) (name (st y))) eqn:E.
    + constructor; [now constructor |].
      constructor; [exact E |].
      eapply Forall_impl; [| exact Hall]. intros z Hz.
      unfold name_le in *. eapply string_leb_trans; eassumption.
    + constructor; [assumption |].
      apply Forall_forall. intros z Hz. apply insert_by_name_in in Hz.
      destruct Hz as [->|Hz].
      * now apply string_leb_false.
      * rewrite Forall_forall in Hall. now apply Hall.
Qed.

Lemma sorted_by_name_sorted (l : list Z) :
  StronglySorted (name_le st) (sorted_by_name st l).
Proof.
  induction l as [|c l IH]; simpl.
  - constructor.
  - now apply insert_by_name_sorted.
Qed.

Variable channel : Z.

(** The scan when no channel's name is greater: the [else] clause. *)
Lemma scan_past_all (l : list Z) :
  forall category position0,
    Forall (fun c => name_after st channel c = false) l ->
    reposition_scan st channel l category position0 =
    match rev l with
    | [] => (category, position0 + 1)
    | p :: _ => (Some (category_id (st p)), position (st p) + 1)
    end.
Proof.
  induction l as [|c l IH]; intros category position0 Hall.
  - reflexivity.
  - inversion Hall as [|? ? Hc Hall']; subst. simpl.
    unfold name_after in Hc. rewrite Hc, (IH _ _ Hall').
    destruct (rev l) as [|p r] eqn:E; simpl; reflexivity.
Qed.

(** The scan when it meets a greater name: the [break]. *)
Lemma scan_to_next (l1 l2 : list Z) (c : Z) :
  forall category position0,
    Forall (fun c' => name_after st channel c' = false) l1 ->
    name_after st channel c = true ->
    reposition_scan st channel (l1 ++ c :: l2) category position0 =
    (match rev l1 with
     | [] => match category with
             | None => Some (category_id (st c))
             | Some _ => category
             end
     | p :: _ => Some (category_id (st p))
     end, position (st c)).
Proof.
  induction l1 as [|x l1 IH]; intros category position0 Hall Hc.
  - simpl. unfold name_after in Hc. now rewrite Hc.
  - inversion Hall as [|? ? Hx Hall']; subst. simpl.
    unfold name_after in Hx. rewrite Hx, (IH _ _ Hall' Hc).
    destruct (rev l1) as [|p r] eqn:E; simpl; reflexivity.
Qed.

Lemma first_after (l : list Z) :
  Exists (fun c => name_after st channel c = true) l ->
  exists l1 c l2,
    l = l1 ++ c :: l2 /\
    Forall (fun c' => name_after st channel c' = false) l1 /\
    name_after st channel c = true.
Proof.
  induction l as [|x l IH]; intros H; [inversion H |].
  destruct (name_after st channel x) eqn:E.
  - exists [], x, l. repeat split; auto.
  - inversion H as [? ? Hx|? ? Hl]; subst; [congruence |].
    destruct (IH Hl) as (l1 & c & l2 & -> & Hall & Hc).
    exists (x :: l1), c, l2. repeat split; auto.
Qed.

End SortedByName.

Lemma sorted_around {A : Type} (R : A -> A -> Prop) (a b : list A) (x : A) :
  StronglySorted R (a ++ x :: b) ->
  Forall (fun y => R y x) a /\ Forall (R x) b.
Proof.
  induction a as [|y a IH]; simpl; intros H.
  - apply StronglySorted_inv in H. split; [constructor | tauto].
  - apply StronglySorted_inv in H. destruct H as [Hs Hall].
    destruct (IH Hs) as [Ha Hb]. split; [| assumption].
    constructor; [| assumption].
    rewrite Forall_forall in Hall. apply Hall. apply in_elt.
Qed.

Lemma rev_cons_split {A : Type} (l r : list A) (p : A) :
  rev l = p :: r -> l = rev r ++ [p].
Proof.
  intros H. rewrite <- (rev_involutive l), H. reflexivity.
Qed.

Section RepositionFacts.

Variable category_channels : store -> Z -> list Z.
Variable channel : Z.
Variable project_categories : list Z.
Variable st : store.

Let others : list Z :=
  other_channels category_channels channel project_categories st.

Lemma reposition_channel_scan :
  reposition_channel category_channels channel project_categories st =
  reposition_scan st channel (sorted_by_name st others) None 0.
Proof. reflexivity. Qed.

Lemma reposition_next :
  (exists c, In c others /\ name_after st channel c = true) ->
  exists c p,
    In c others /\ name_after st channel c = true /\
    (forall c', In c' others -> name_after st channel c' = true ->
                name_le st c c') /\
    In p others /\
    ((name_after st channel p = false /\
      forall c', In c' others -> name_after st channel c' = false ->
                 name_le st c' p) \/
     (p = c /\ forall c', In c' others -> name_after st channel c' = true)) /\
    reposition_channel category_channels channel project_categories st
    = (Some (category_id (st p)), position (st c)).
Proof.
  intros (c0 & Hc0 & Hgt0).
  assert (Hex : Exists (fun c => name_after st channel c = true)
                       (sorted_by_name st others)).
  { apply Exists_exists. exists c0. split; [now apply sorted_by_name_in | assumption]. }
  destruct (first_after st channel _ Hex) as (l1 & c & l2 & HL & Hall1 & Hc).
  pose proof (sorted_by_name_sorted st others) as Hsorted. rewrite HL in Hsorted.
  destruct (sorted_around _ _ _ _ Hsorted) as [Hbefore Hafter].
  assert (Hmem : forall x, In x others <-> In x l1 \/ x = c \/ In x l2).
  { intros x. rewrite <- (sorted_by_name_in st), HL, in_app_iff. simpl.
    intuition. }
  assert (Hl2 : forall x, In x l2 -> name_after st channel x = true).
  { intros x Hx. rewrite Forall_forall in Hafter. specialize (Hafter x Hx).
    unfold name_after in *. eapply string_ltb_leb_trans; eassumption. }
  rewrite reposition_channel_scan, HL, (scan_to_next st channel l1 l2 c _ _ Hall1 Hc).
  rewrite Forall_forall in Hall1.
  assert (Hleast : forall c', In c' others -> name_after st channel c' = true ->
                              name_le st c c').
  { intros c' Hc' Hgt. apply Hmem in Hc'. destruct Hc' as [H1|[->|H2]].
    - rewrite (Hall1 c' H1) in Hgt. discriminate.
    - apply string_leb_refl.
    - rewrite Forall_forall in Hafter. now apply Hafter. }
  destruct (rev l1) as [|p r] eqn:E.
  - exists c, c. repeat split; auto.
    + apply Hmem. auto.
    + apply Hmem. auto.
    + right. split; [reflexivity |]. intros c' Hc'.
      apply Hmem in Hc'. destruct Hc' as [H1|[->|H2]]; auto.
      apply (f_equal (@rev Z)) in E. rewrite rev_involutive in E. subst l1.
      destruct H1.
  - apply rev_cons_split in E. subst l1.
    assert (Hp : In p (rev r ++ [p])) by (apply in_elt).
    exists c, p. repeat split; auto.
    + apply Hmem. auto.
    + apply Hmem. auto.
    + left. split; [now apply Hall1 |]. intros c' Hc' Hle.
      apply Hmem in Hc'. destruct Hc' as [H1|[->|H2]].
      * apply in_app_or in H1. destruct H1 as [H1|[<-|[]]].
        -- rewrite <- app_assoc in Hsorted. simpl in Hsorted.
           destruct (sorted_around _ _ _ _ Hsorted) as [Hr _].
           rewrite Forall_forall in Hr. now apply Hr.
        -- apply string_leb_refl.
      * congruence.
      * rewrite (Hl2 c' H2) in Hle. discriminate.
Qed.

Lemma reposition_last :
  others <> [] ->
  (forall c, In c others -> name_after st channel c = false) ->
  exists p,
    In p others /\
    (forall c', In c' others -> name_le st c' p) /\
    reposition_channel category_channels channel project_categories st
    = (Some (category_id (st p)), position (st p) + 1).
Proof.
  intros Hne Hall.
  rewrite reposition_channel_scan, scan_past_all.
  - destruct (rev (sorted_by_name st others)) as [|p r] eqn:E.
    + exfalso. apply (f_equal (@rev Z)) in E.
      rewrite rev_involutive in E. simpl in E.
      assert (Hx : exists x, In x others).
      { destruct others as [|x l]; [contradiction | exists x; now left]. }
      destruct Hx as [x Hx]. apply (sorted_by_name_in st) in Hx.
      rewrite E in Hx. destruct Hx.
    + apply rev_cons_split in E.
      pose proof (sorted_by_name_sorted st others) as Hsorted.
      rewrite E in Hsorted.
      destruct (sorted_around _ _ _ _ Hsorted) as [Hr _].
      assert (Hmem : forall x, In x others <-> In x (rev r) \/ x = p).
      { intros x. rewrite <- (sorted_by_name_in st), E, in_app_iff. simpl.
        intuition. }
      exists p. repeat split.
      * apply Hmem. auto.
      * intros c' Hc'. apply Hmem in Hc'. destruct Hc' as [H1| ->].
        -- rewrite Forall_forall in Hr. now apply Hr.
        -- apply string_leb_refl.
  - apply Forall_forall. intros c Hc. apply Hall. now apply sorted_by_name_in in Hc.
Qed.

End RepositionFacts.

(** X16: with no other channel in the project categories,
    [reposition_channel] hands [channel.edit] no category ([None]) and the
    position 1. *)
Theorem reposition_channel_alone
        (category_channels : store -> Z -> list Z) (channel : Z)
        (project_categories : list Z) (st : store) :
  (forall cat c, In cat project_categories ->
                 In c (category_channels st cat) -> c = channel) ->
  reposition_channel category_channels channel project_categories st = (None, 1).
Proof.
  intros H. rewrite reposition_channel_scan.
  assert (E : other_channels category_channels channel project_categories st = []).
  { unfold other_channels.
    destruct (filter _ _) as [|x l] eqn:Ef; [reflexivity |].
    assert (Hx : In x (x :: l)) by now left.
    rewrite <- Ef in Hx. apply filter_In in Hx. destruct Hx as [Hx Hb].
    apply in_flat_map in Hx. destruct Hx as (cat & Hcat & Hx).
    rewrite (H cat x Hcat Hx), Z.eqb_refl in Hb. discriminate. }
  rewrite E. reflexivity.
Qed.

Lemma reposition_channel_alone_witness :
  reposition_channel (channels_of [1; 2; 3]) 3 [200] two_categories = (None, 1).
Proof.
  apply (reposition_channel_alone (channels_of [1; 2; 3]) 3 [200]).
  intros cat c [<-|[]]. simpl. intuition.
Defined.

(** X17: when some other channel has a greater name, [reposition_channel]
    hands over the position of an other channel [c] whose name is the least
    of the greater ones, and the category of an other channel [p]: one whose
    name is the greatest of those not greater, or [c] itself when every
    other name is greater. *)
Theorem reposition_channel_before_next
        (category_channels : store -> Z -> list Z) (channel : Z)
        (project_categories : list Z) (st : store) :
  (exists c,
      In c (other_channels category_channels channel project_categories st) /\
      name_after st channel c = true) ->
  exists c p,
    In c (other_channels category_channels channel project_categories st) /\
    name_after st channel c = true /\
    (forall c',
        In c' (other_channels category_channels channel project_categories st) ->
        name_after st channel c' = true -> name_le st c c') /\
    In p (other_channels category_channels channel project_categories st) /\
    ((name_after st channel p = false /\
      forall c',
        In c' (other_channels category_channels channel project_categories st) ->
        name_after st channel c' = false -> name_le st c' p) \/
     (p = c /\
      forall c',
        In c' (other_channels category_channels channel project_categories st) ->
        name_after st channel c' = true)) /\
    reposition_channel category_channels channel project_categories st
    = (Some (category_id (st p)), position (st c)).
Proof.
  exact (reposition_next category_channels channel project_categories st).
Qed.

Lemma reposition_channel_before_next_witness :
  exists c p,
    In c (other_channels (channels_of [1; 2; 3; 4]) 2 [100] fruit) /\
    name_after fruit 2 c = true /\
    (forall c', In c' (other_channels (channels_of [1; 2; 3; 4]) 2 [100] fruit) ->
                name_after fruit 2 c' = true -> name_le fruit c c') /\
    In p (other_channels (channels_of [1; 2; 3; 4]) 2 [100] fruit) /\
    ((name_after fruit 2 p = false /\
      forall c', In c' (other_channels (channels_of [1; 2; 3; 4]) 2 [100] fruit) ->
                 name_after fruit 2 c' = false -> name_le fruit c' p) \/
     (p = c /\
      forall c', In c' (other_channels (channels_of [1; 2; 3; 4]) 2 [100] fruit) ->
                 name_after fruit 2 c' = true)) /\
    reposition_channel (channels_of [1; 2; 3; 4]) 2 [100] fruit
    = (Some (category_id (fruit p)), position (fruit c)).
Proof.
  apply (reposition_channel_before_next (channels_of [1; 2; 3; 4]) 2 [100] fruit).
  exists 3. split; [simpl; auto | reflexivity].
Defined.

(** X18: when there are other channels and none has a greater name,
    [reposition_channel] hands over the category of an other channel whose
    name is the greatest, and one more than its position. *)
Theorem reposition_channel_after_last
        (category_channels : store -> Z -> list Z) (channel : Z)
        (project_categories : list Z) (st : store) :
  other_channels category_channels channel project_categories st <> [] ->
  (forall c,
      In c (other_channels category_channels channel project_categories st) ->
      name_after st channel c = false) ->
  exists p,
    In p (other_channels category_channels channel project_categories st) /\
    (forall c',
        In c' (other_channels category_channels channel project_categories st) ->
        name_le st c' p) /\
    reposition_channel category_channels channel project_categories st
    = (Some (category_id (st p)), position (st p) + 1).
Proof.
  exact (reposition_last category_channels channel project_categories st).
Qed.

Lemma reposition_channel_after_last_witness :
  exists p,
    In p (other_channels (channels_of [1; 2; 3; 4]) 4 [100] fruit) /\
    (forall c', In c' (other_channels (channels_of [1; 2; 3; 4]) 4 [100] fruit) ->
                name_le fruit c' p) /\
    reposition_channel (channels_of [1; 2; 3; 4]) 4 [100] fruit
    = (Some (category_id (fruit p)), position (fruit p) + 1).
Proof.
  apply (reposition_channel_after_last (channels_of [1; 2; 3; 4]) 4 [100] fruit).
  - discriminate.
  - intros c Hc. simpl in Hc. destruct Hc as [<-|[<-|[<-|[]]]]; reflexivity.
Defined.

(** ** Part 9: facts about [make_channel] *)

Section MakeChannelFacts.

Variable lower : string -> string.
Variable st : store.
Variable new_name : string.

Lemma make_scan_default (l : list Z) (position0 category0 : Z) :
  Forall (fun c => lower_after lower st new_name c = false) l ->
  make_channel_scan lower st new_name l position0 category0
  = (category0, position0).
Proof.
  induction 1 as [|c l Hc Hall IH]; simpl; [reflexivity |].
  unfold lower_after in Hc. now rewrite Hc.
Qed.

Lemma make_scan_first (l1 l2 : list Z) (c : Z) (position0 category0 : Z) :
  Forall (fun c' => lower_after lower st new_name c' = false) l1 ->
  lower_after lower st new_name c = true ->
  make_channel_scan lower st new_name (l1 ++ c :: l2) position0 category0
  = (category_id (st c), position (st c)).
Proof.
  induction 1 as [|x l1 Hx Hall IH]; simpl; intros Hc.
  - unfold lower_after in Hc. now rewrite Hc.
  - unfold lower_after in Hx. rewrite Hx. now apply IH.
Qed.

Lemma first_lower_after (l : list Z) :
  Exists (fun c => lower_after lower st new_name c = true) l ->
  exists l1 c l2,
    l = l1 ++ c :: l2 /\
    Forall (fun c' => lower_after lower st new_name c' = false) l1 /\
    lower_after lower st new_name c = true.
Proof.
  induction l as [|x l IH]; intros H; [inversion H |].
  destruct (lower_after lower st new_name x) eqn:E.
  - exists [], x, l. repeat split; auto.
  - inversion H as [? ? Hx|? ? Hl]; subst; [congruence |].
    destruct (IH Hl) as (l1 & c & l2 & -> & Hall & Hc).
    exists (x :: l1), c, l2. repeat split; auto.
Qed.

Lemma last_channel_returns (l : list Z) :
  l <> [] -> exists front c, l = front ++ [c] /\ last_channel l = Returns c.
Proof.
  intros Hne. unfold last_channel.
  destruct (rev l) as [|c r] eqn:E.
  - apply (f_equal (@rev Z)) in E. rewrite rev_involutive in E. contradiction.
  - exists (rev r), c. split; [now apply rev_cons_split | reflexivity].
Qed.

End MakeChannelFacts.


(** X20: with project categories of which no channel has a greater lowered
    name, [make_channel] hands over the last category and the number of
    channels in it. *)
Theorem make_channel_default
        (lower : string -> string) (category_channels : store -> Z -> list Z)
        (new_name : string) (categories : list Z) (st : store) :
  categories <> [] ->
  (forall c, In c (flat_map (category_channels st) categories) ->
             lower_after lower st new_name c = false) ->
  exists front last_category,
    categories = front ++ [last_category] /\
    make_channel_target lower category_channels new_name categories st
    = Returns (last_category,
               Z.of_nat (length (category_channels st last_category))).
Proof.
  intros Hne Hall. unfold make_channel_target.
  destruct (last_channel_returns categories Hne) as (front & cat & Hcat & ->).
  exists front, cat. split; [assumption |]. simpl.
  rewrite make_scan_default; [reflexivity |].
  apply Forall_forall. intros c Hc. apply Hall.
  now apply sorted_by_name_in in Hc.
Qed.

Lemma make_channel_default_witness :
  exists front last_category,
    [100] = front ++ [last_category] /\
    make_channel_target (fun s => s) (channels_of [1; 2; 3; 4]) "Elder" [100] fruit
    = Returns (last_category,
               Z.of_nat (length (channels_of [1; 2; 3; 4] fruit last_category))).
Proof.
  apply (make_channel_default (fun s => s) (channels_of [1; 2; 3; 4]) "Elder"
           [100] fruit).
  - discriminate.
  - intros c Hc. simpl in Hc.
    destruct Hc as [<-|[<-|[<-|[<-|[]]]]]; reflexivity.
Defined.

(** X21: when some channel of the project categories has a greater lowered
    name, [make_channel] hands over the category and the position of such a
    channel: the first of them in the order of the (unlowered) names. *)
Theorem make_channel_before_next
        (lower : string -> string) (category_channels : store -> Z -> list Z)
        (new_name : string) (categories : list Z) (st : store) :
  (exists c, In c (flat_map (category_channels st) categories) /\
             lower_after lower st new_name c = true) ->
  exists c,
    In c (flat_map (category_channels st) categories) /\
    lower_after lower st new_name c = true /\
    (forall c', In c' (flat_map (category_channels st) categories) ->
                lower_after lower st new_name c' = true -> name_le st c c') /\
    make_channel_target lower category_channels new_name categories st
    = Returns (category_id (st c), position (st c)).
Proof.
  intros (c0 & Hc0 & Hgt0).
  assert (Hne : categories <> []) by (intros ->; destruct Hc0).
  unfold make_channel_target.
  destruct (last_channel_returns categories Hne) as (front & cat & _ & ->).
  simpl.
  assert (Hex : Exists (fun c => lower_after lower st new_name c = true)
                       (sorted_by_name st (flat_map (category_channels st) categories))).
  { apply Exists_exists. exists c0. split; [now apply sorted_by_name_in | assumption]. }
  destruct (first_lower_after lower st new_name _ Hex)
    as (l1 & c & l2 & HL & Hall1 & Hc).
  pose proof (sorted_by_name_sorted st (flat_map (category_channels st) categories))
    as Hsorted.
  rewrite HL in Hsorted. destruct (sorted_around _ _ _ _ Hsorted) as [_ Hafter].
  rewrite HL, (make_scan_first lower st new_name l1 l2 c _ _ Hall1 Hc).
  exists c. repeat split; auto.
  - apply (sorted_by_name_in st). rewrite HL. apply in_elt.
  - intros c' Hc' Hgt. apply (sorted_by_name_in st) in Hc'. rewrite HL in Hc'.
    apply in_app_or in Hc'. destruct Hc' as [H1|[<-|H2]].
    + rewrite Forall_forall in Hall1. rewrite (Hall1 c' H1) in Hgt. discriminate.
    + apply string_leb_refl.
    + rewrite Forall_forall in Hafter. now apply Hafter.
Qed.

Lemma make_channel_before_next_witness :
  exists c,
    In c (flat_map (channels_of [1; 2; 3; 4] fruit) [100]) /\
    lower_after (fun s => s) fruit "Blueberry" c = true /\
    (forall c', In c' (flat_map (channels_of [1; 2; 3; 4] fruit) [100]) ->
                lower_after (fun s => s) fruit "Blueberry" c' = true ->
                name_le fruit c c') /\
    make_channel_target (fun s => s) (channels_of [1; 2; 3; 4]) "Blueberry" [100] fruit
    = Returns (category_id (fruit c), position (fruit c)).
Proof.
  apply (make_channel_before_next (fun s => s) (channels_of [1; 2; 3; 4])
           "Blueberry" [100] fruit).
  exists 3. split; [simpl; auto | reflexivity].
Defined.

(** ** Part 10: facts about the planning half of [sort] *)

Section AsciiOrder.

Lemma ascii_ltb_lt (a b : Ascii.ascii) :
  Ascii.ltb a b = true <-> (Ascii.N_of_ascii a < Ascii.N_of_ascii b)%N.
Proof.
  unfold Ascii.ltb, Ascii.compare.
  destruct (N.compare_spec (Ascii.N_of_ascii a) (Ascii.N_of_ascii b));
    split; intros; try discriminate; try reflexivity; lia.
Qed.

Lemma ascii_eqb_eq (a b : Ascii.ascii) :
  Ascii.eqb a b = true <-> Ascii.N_of_ascii a = Ascii.N_of_ascii b.
Proof.
  rewrite Ascii.eqb_eq. split; [now intros -> |].
  intros H. rewrite <- (Ascii.ascii_N_embedding a), H.
  apply Ascii.ascii_N_embedding.
Qed.

Lemma item_le_spec (x y : Ascii.ascii * Z) :
  item_le x y = true <->
  (Ascii.N_of_ascii (fst x) < Ascii.N_of_ascii (fst y))%N \/
  (Ascii.N_of_ascii (fst x) = Ascii.N_of_ascii (fst y) /\ snd x <= snd y).
Proof.
  unfold item_le.
  rewrite orb_true_iff, andb_true_iff, ascii_ltb_lt, ascii_eqb_eq, Z.leb_le.
  reflexivity.
Qed.

Lemma item_le_trans (x y z : Ascii.ascii * Z) :
  item_le x y = true -> item_le y z = true -> item_le x z = true.
Proof. rewrite !item_le_spec. lia. Qed.

Lemma item_le_false (x y : Ascii.ascii * Z) :
  item_le x y = false -> item_le y x = true.
Proof.
  intros H. apply item_le_spec.
  destruct (item_le x y) eqn:E; [discriminate |].
  assert (Hn : ~ ((Ascii.N_of_ascii (fst x) < Ascii.N_of_ascii (fst y))%N \/
                  (Ascii.N_of_ascii (fst x) = Ascii.N_of_ascii (fst y) /\
                   snd x <= snd y))).
  { intros Hc. apply item_le_spec in Hc. congruence. }
  lia.
Qed.

Lemma item_le_strict (x y : Ascii.ascii * Z) :
  item_le x y = true -> fst x <> fst y -> key_lt x y.
Proof.
  unfold key_lt. rewrite item_le_spec, ascii_ltb_lt. intros [H|[H _]] Hne.
  - assumption.
  - exfalso. apply Hne. now apply Ascii.eqb_eq, ascii_eqb_eq.
Qed.

End AsciiOrder.

Section CounterFacts.

Lemma sum_permutation (l l' : list Z) : Permutation l l' -> sum l = sum l'.
Proof.
  induction 1 as [|x l l' _ IH|x y l|l l' l'' _ IH1 _ IH2].
  - reflexivity.
  - now rewrite !sum_cons, IH.
  - rewrite !sum_cons. lia.
  - congruence.
Qed.

Lemma count_one_keys (c k : Ascii.ascii) (d : list (Ascii.ascii * Z)) :
  In k (map fst (count_one c d)) <-> k = c \/ In k (map fst d).
Proof.
  induction d as [|[k0 v] d IH]; simpl.
  - intuition.
  - destruct (Ascii.eqb_spec c k0) as [->|Hne]; simpl.
    + intuition.
    + rewrite IH. intuition.
Qed.

Lemma count_one_nodup (c : Ascii.ascii) (d : list (Ascii.ascii * Z)) :
  NoDup (map fst d) -> NoDup (map fst (count_one c d)).
Proof.
  induction d as [|[k0 v] d IH]; simpl; intros H.
  - repeat constructor. intros [].
  - inversion H as [|? ? Hk Hd]; subst.
    destruct (Ascii.eqb_spec c k0) as [->|Hne]; simpl.
    + now constructor.
    + constructor; [| now apply IH].
      rewrite count_one_keys. intros [->|Hin]; [now apply Hne | contradiction].
Qed.

Lemma count_one_positive (c : Ascii.ascii) (d : list (Ascii.ascii * Z)) :
  Forall (fun x => 1 <= snd x) d -> Forall (fun x => 1 <= snd x) (count_one c d).
Proof.
  induction 1 as [|[k0 v] d Hv Hall IH]; simpl.
  - repeat constructor. simpl. lia.
  - destruct (Ascii.eqb c k0); constructor; simpl in *; auto; lia.
Qed.

Lemma count_one_sum (c : Ascii.ascii) (d : list (Ascii.ascii * Z)) :
  sum (map snd (count_one c d)) = sum (map snd d) + 1.
Proof.
  induction d as [|[k0 v] d IH]; simpl.
  - rewrite sum_cons, sum_nil. lia.
  - destruct (Ascii.eqb c k0); simpl; rewrite !sum_cons; [| rewrite IH]; lia.
Qed.

Lemma counter_fold (chars : list Ascii.ascii) :
  forall d,
    NoDup (map fst d) -> Forall (fun x => 1 <= snd x) d ->
    let d' := fold_left (fun counter c => count_one c counter) chars d in
    NoDup (map fst d') /\ Forall (fun x => 1 <= snd x) d' /\
    sum (map snd d') = sum (map snd d) + Z.of_nat (length chars) /\
    forall k, In k (map fst d') <-> In k chars \/ In k (map fst d).
Proof.
  induction chars as [|c chars IH]; intros d Hnd Hpos; simpl.
  - repeat split; auto; try lia; tauto.
  - destruct (IH (count_one c d) (count_one_nodup c d Hnd)
                 (count_one_positive c d Hpos)) as (H1 & H2 & H3 & H4).
    repeat split; auto.
    + rewrite H3, count_one_sum. lia.
    + rewrite H4, count_one_keys. intuition congruence.
    + rewrite H4, count_one_keys. intuition congruence.
Qed.

Lemma insert_item_permutation (x : Ascii.ascii * Z) (l : list (Ascii.ascii * Z)) :
  Permutation (x :: l) (insert_item x l).
Proof.
  induction l as [|y l IH]; simpl.
  - reflexivity.
  - destruct (item_le x y); [reflexivity |].
    rewrite perm_swap. now apply perm_skip.
Qed.

Lemma sorted_items_permutation (l : list (Ascii.ascii * Z)) :
  Permutation l (sorted_items l).
Proof.
  induction l as [|x l IH]; simpl.
  - reflexivity.
  - rewrite <- insert_item_permutation. now apply perm_skip.
Qed.

Lemma insert_item_sorted (x : Ascii.ascii * Z) (l : list (Ascii.ascii * Z)) :
  StronglySorted (fun a b => item_le a b = true) l ->
  StronglySorted (fun a b => item_le a b = true) (insert_item x l).
Proof.
  induction 1 as [|y l Hs IH Hall]; simpl.
  - repeat constructor.
  - destruct (item_le x y) eqn:E.
    + constructor; [now constructor |].
      constructor; [exact E |].
      eapply Forall_impl; [| exact Hall]. intros z Hz.
      eapply item_le_trans; eassumption.
    + constructor; [assumption |].
      apply Forall_forall. intros z Hz.
      apply (Permutation_in _ (Permutation_sym (insert_item_permutation x l))) in Hz.
      destruct Hz as [<-|Hz].
      * now apply item_le_false.
      * rewrite Forall_forall in Hall. now apply Hall.
Qed.

Lemma sorted_items_sorted (l : list (Ascii.ascii * Z)) :
  StronglySorted (fun a b => item_le a b = true) (sorted_items l).
Proof.
  induction l as [|x l IH]; simpl.
  - constructor.
  - now apply insert_item_sorted.
Qed.

Lemma sorted_strict (l : list (Ascii.ascii * Z)) :
  StronglySorted (fun a b => item_le a b = true) l ->
  NoDup (map fst l) -> StronglySorted key_lt l.
Proof.
  induction 1 as [|x l Hs IH Hall]; simpl; intros Hnd.
  - constructor.
  - inversion Hnd as [|? ? Hx Hnd']; subst. constructor; [now apply IH |].
    rewrite Forall_forall in *. intros y Hy. apply item_le_strict.
    + now apply Hall.
    + intros E. apply Hx. rewrite E. now apply in_map.
Qed.

Lemma Counter_facts (s : string) :
  NoDup (map fst (Counter s)) /\
  Forall (fun x => 1 <= snd x) (Counter s) /\
  sum (map snd (Counter s)) = Z.of_nat (length (list_ascii_of_string s)) /\
  forall k, In k (map fst (Counter s)) <-> In k (list_ascii_of_string s).
Proof.
  unfold Counter.
  destruct (counter_fold (list_ascii_of_string s) [] (NoDup_nil _) (Forall_nil _))
    as (Hnd & Hpos & Hsum & Hkeys).
  repeat split; auto.
  - intros Hk. apply Hkeys in Hk. simpl in Hk. tauto.
  - intros Hk. apply Hkeys. now left.
Qed.

Lemma letter_frequencies_facts (letters : list string) :
  sum (map snd (letter_frequencies letters))
  = Z.of_nat (length (list_ascii_of_string (String.concat "" letters))) /\
  Forall (fun x => 1 <= snd x) (letter_frequencies letters) /\
  StronglySorted key_lt (letter_frequencies letters) /\
  forall c, In c (map fst (letter_frequencies letters)) <->
            In c (list_ascii_of_string (String.concat "" letters)).
Proof.
  destruct (Counter_facts (String.concat "" letters))
    as (Hnd & Hpos & Hsum & Hkeys).
  pose proof (sorted_items_permutation (Counter (String.concat "" letters)))
    as Hperm.
  unfold letter_frequencies. repeat split.
  - now rewrite <- (sum_permutation _ _ (Permutation_map snd Hperm)).
  - eapply Permutation_Forall; eassumption.
  - apply sorted_strict; [apply sorted_items_sorted |].
    eapply Permutation_NoDup; [apply Permutation_map, Hperm | assumption].
  - intros Hc. apply Hkeys.
    apply (Permutation_in _ (Permutation_sym (Permutation_map fst Hperm))).
    exact Hc.
  - intros Hc. apply (Permutation_in _ (Permutation_map fst Hperm)).
    now apply Hkeys.
Qed.

End CounterFacts.

(** X22: the letter frequencies [sort] computes hold each character of the
    joined letters once, in strictly increasing order of character, with a
    count of at least 1, and the counts add up to the number of characters. *)
Theorem letter_frequencies_counts (letters : list string) :
  sum (map snd (letter_frequencies letters))
  = Z.of_nat (length (list_ascii_of_string (String.concat "" letters))) /\
  Forall (fun x => 1 <= snd x) (letter_frequencies letters) /\
  StronglySorted key_lt (letter_frequencies letters) /\
  forall c, In c (map fst (letter_frequencies letters)) <->
            In c (list_ascii_of_string (String.concat "" letters)).
Proof.
  exact (letter_frequencies_facts letters).
Qed.

Section IndexFacts.

Lemma bind_returns {A B : Type} (x : outcome A) (f : A -> outcome B) (y : B) :
  bind x f = Returns y -> exists a, x = Returns a /\ f a = Returns y.
Proof.
  destruct x as [a|e]; simpl; intros H; [| discriminate].
  now exists a.
Qed.

Lemma index_returns {A : Type} (l : list A) (z : Z) (x : A) :
  index l z = Returns x ->
  (0 <= z < Z.of_nat (length l) /\ nth_error l (Z.to_nat z) = Some x) \/
  (- Z.of_nat (length l) <= z < 0 /\
   nth_error l (Z.to_nat (z + Z.of_nat (length l))) = Some x).
Proof.
  unfold index. destruct (Z.ltb_spec z 0) as [Hneg|Hpos].
  - destruct (Z.leb_spec 0 (z + Z.of_nat (length l))) as [H0|H0]; simpl;
      [| discriminate].
    destruct (Z.ltb_spec (z + Z.of_nat (length l)) (Z.of_nat (length l)))
      as [H1|H1]; simpl; [| discriminate].
    destruct (nth_error l _) eqn:E; [| discriminate].
    intros Hx. injection Hx as <-. right. split; [lia | reflexivity].
  - destruct (Z.leb_spec 0 z) as [H0|H0]; simpl; [| discriminate].
    destruct (Z.ltb_spec z (Z.of_nat (length l))) as [H1|H1]; simpl;
      [| discriminate].
    destruct (nth_error l _) eqn:E; [| discriminate].
    intros Hx. injection Hx as <-. left. split; [lia | reflexivity].
Qed.

Lemma index_in_range {A : Type} (l : list A) (z : Z) :
  0 <= z < Z.of_nat (length l) -> exists x, index l z = Returns x.
Proof.
  intros H. unfold index.
  destruct (Z.ltb_spec z 0); [lia |].
  destruct (Z.leb_spec 0 z); [| lia].
  destruct (Z.ltb_spec z (Z.of_nat (length l))); [| lia]. simpl.
  destruct (nth_error l (Z.to_nat z)) eqn:E; [now eexists |].
  apply nth_error_None in E. lia.
Qed.

Lemma index_empty {A : Type} (z : Z) : index (@nil A) z = Raises IndexError.
Proof.
  unfold index. simpl. destruct (z <? 0); simpl.
  - rewrite Z.add_0_r.
    destruct (Z.leb_spec 0 z), (Z.ltb_spec z 0); simpl; try reflexivity; lia.
  - destruct (Z.leb_spec 0 z), (Z.ltb_spec z 0); simpl; try reflexivity; lia.
Qed.

Lemma list_slice_slice (l : list Z) (a b : Z) :
  0 <= a <= Z.of_nat (length l) -> 0 <= b <= Z.of_nat (length l) ->
  list_slice l a b = slice l (Z.to_nat a) (Z.to_nat b).
Proof.
  intros Ha Hb. unfold list_slice, slice, clamp.
  destruct (Z.ltb_spec a 0); [lia |]. destruct (Z.ltb_spec b 0); [lia |].
  rewrite !Z.min_l by lia. f_equal. lia.
Qed.

End IndexFacts.

Section PrefixSums.

Variable counts : list Z.
Hypothesis counts_nonneg : Forall (fun w => 0 <= w) counts.

Lemma prefix_step (i j : nat) :
  (i <= j)%nat ->
  sum (slice counts 0 i) + sum (slice counts i j) = sum (slice counts 0 j).
Proof.
  intros H. rewrite (slice_split counts 0 i j) by lia. now rewrite sum_app.
Qed.

Lemma prefix_nonneg (i : nat) : 0 <= sum (slice counts 0 i).
Proof. now apply slice_nonneg. Qed.

Lemma prefix_monotone (i j : nat) :
  (i <= j)%nat -> sum (slice counts 0 i) <= sum (slice counts 0 j).
Proof.
  intros H. rewrite <- (prefix_step i j H).
  pose proof (slice_nonneg counts i j counts_nonneg). lia.
Qed.

Lemma prefix_total : sum (slice counts 0 (length counts)) = sum counts.
Proof. now rewrite slice_all. Qed.

End PrefixSums.

Section PlanFacts.

Variable counts : list Z.
Variable letters : list string.
Variable channels categories : list Z.
Hypothesis counts_nonneg : Forall (fun w => 0 <= w) counts.
Hypothesis counts_total : sum counts = Z.of_nat (length channels).

Lemma plan_step_returns (k i j : nat) (e : plan_entry) :
  (i <= j <= length counts)%nat ->
  plan_step counts letters channels categories k i j = Returns e ->
  nth_error categories k = Some (fst (fst e)) /\
  snd e = slice channels (Z.to_nat (sum (slice counts 0 i)))
                (Z.to_nat (sum (slice counts 0 j))).
Proof.
  intros Hij H. unfold plan_step in H.
  apply bind_returns in H. destruct H as (start_letter & _ & H).
  apply bind_returns in H. destruct H as (end_letter & _ & H).
  apply bind_returns in H. destruct H as (cat & Hcat & H).
  apply bind_returns in H. destruct H as (c1 & _ & H).
  apply bind_returns in H. destruct H as (c2 & _ & H).
  injection H as <-. simpl. split.
  - apply index_returns in Hcat. destruct Hcat as [[_ Hn]|[Hneg _]]; [| lia].
    now rewrite Nat2Z.id in Hn.
  - rewrite (prefix_step counts i j) by lia.
    pose proof (prefix_nonneg counts counts_nonneg i).
    pose proof (prefix_nonneg counts counts_nonneg j).
    pose proof (prefix_monotone counts counts_nonneg i (length counts)).
    pose proof (prefix_monotone counts counts_nonneg j (length counts)).
    pose proof (prefix_total counts).
    apply list_slice_slice; lia.
Qed.

Lemma plan_loop_tiles (D : list nat) :
  forall (s k : nat) (entries : list plan_entry),
    StronglySorted Nat.le (s :: D) ->
    Forall (fun d => (d <= length counts)%nat) (s :: D) ->
    plan_loop counts letters channels categories k
              (combine (s :: D) (D ++ [length counts])) = Returns entries ->
    map (fun e => fst (fst e)) entries
    = firstn (S (length D)) (skipn k categories) /\
    concat (map snd entries)
    = slice channels (Z.to_nat (sum (slice counts 0 s)))
            (Z.to_nat (sum (slice counts 0 (length counts)))).
Proof.
  induction D as [|d D IH]; intros s k entries Hs Hall Hrun.
  - simpl in Hrun. inversion Hall as [|? ? Hsn _]; subst.
    apply bind_returns in Hrun. destruct Hrun as (e & He & Hrun).
    injection Hrun as <-.
    apply plan_step_returns in He; [| lia]. destruct He as [Hcat Hsl].
    simpl. rewrite app_nil_r, Hsl. split; [| reflexivity].
    destruct (skipn k categories) as [|c r] eqn:E.
    + apply (f_equal (@length Z)) in E. rewrite length_skipn in E.
      assert (k < length categories)%nat by (apply nth_error_Some; congruence).
      simpl in E. lia.
    + simpl. f_equal.
      rewrite <- (firstn_skipn k categories), E in Hcat.
      rewrite nth_error_app2 in Hcat by (rewrite length_firstn; lia).
      rewrite length_firstn in Hcat.
      assert (k < length categories)%nat.
      { apply (f_equal (@length Z)) in E. rewrite length_skipn in E.
        simpl in E. lia. }
      replace (k - Nat.min k (length categories))%nat with 0%nat in Hcat by lia.
      simpl in Hcat. congruence.
  - apply StronglySorted_inv in Hs. destruct Hs as [Hs Hle].
    inversion Hall as [|? ? Hsn Hall']; subst.
    inversion Hle as [|? ? Hsd _]; subst.
    inversion Hall' as [|? ? Hdn _]; subst.
    change (combine (s :: d :: D) ((d :: D) ++ [length counts]))
      with ((s, d) :: combine (d :: D) (D ++ [length counts])) in Hrun.
    simpl plan_loop in Hrun.
    apply bind_returns in Hrun. destruct Hrun as (e & He & Hrun).
    apply bind_returns in Hrun. destruct Hrun as (es & Hes & Hrun).
    injection Hrun as <-.
    apply plan_step_returns in He; [| unfold Nat.le in *; lia].
    destruct He as [Hcat Hsl].
    destruct (IH d (S k) es Hs Hall' Hes) as [Hcats Hcon].
    split.
    + simpl map. rewrite Hcats.
      assert (Hk : (k < length categories)%nat)
        by (apply nth_error_Some; congruence).
      destruct (skipn k categories) as [|c r] eqn:E.
      * apply (f_equal (@length Z)) in E. rewrite length_skipn in E.
        simpl in E. lia.
      * assert (Hr : skipn (S k) categories = r).
        { change (S k) with (1 + k)%nat. now rewrite <- skipn_skipn, E. }
        rewrite Hr. change (length (d :: D)) with (S (length D)).
        cbn [firstn]. f_equal.
        rewrite <- (firstn_skipn k categories), E in Hcat.
        rewrite nth_error_app2 in Hcat by (rewrite length_firstn; lia).
        rewrite length_firstn in Hcat.
        replace (k - Nat.min k (length categories))%nat with 0%nat in Hcat by lia.
        simpl in Hcat. congruence.
    + simpl map. simpl concat. rewrite Hsl, Hcon.
      symmetry. apply slice_split.
      pose proof (prefix_monotone counts counts_nonneg s d).
      pose proof (prefix_monotone counts counts_nonneg d (length counts)).
      pose proof (prefix_nonneg counts counts_nonneg s).
      unfold Nat.le in *. lia.
Qed.

End PlanFacts.

Lemma repeat_sorted (k : nat) : StronglySorted Nat.le (repeat 0%nat k).
Proof.
  induction k as [|k IH]; simpl; constructor; [assumption |].
  apply Forall_forall. intros x Hx. apply repeat_spec in Hx. subst. constructor.
Qed.

(** The dividers [balance_categories] returns are always weakly increasing
    and at most [n]. *)
Lemma balance_categories_weakly (arr : list Z) (num_cats : Z) :
  StronglySorted Nat.le (balance_categories arr num_cats) /\
  Forall (fun d => (d <= length arr)%nat) (balance_categories arr num_cats).
Proof.
  split; [| apply balance_categories_upto].
  destruct (balance_categories_cases arr num_cats)
    as [[-> _]|(l1 & l2 & HL & _)].
  - apply repeat_sorted.
  - assert (Hr : In (balance_categories arr num_cats)
                    (candidates (num_cats - 1) 0 (length arr))).
    { rewrite HL. apply in_elt. }
    apply visited_candidates in Hr. destruct Hr as (_ & Hs & _).
    now apply strictly_weakly.
Qed.

Section LettersFacts.

Variable upper : string -> string.
Hypothesis upper_one :
  forall c, String.length (upper (String c EmptyString)) = 1%nat.

Lemma string_length_append (s1 s2 : string) :
  String.length (s1 ++ s2) = (String.length s1 + String.length s2)%nat.
Proof.
  induction s1 as [|c s1 IH]; simpl; [reflexivity | now rewrite IH].
Qed.

Lemma length_list_ascii (s : string) :
  length (list_ascii_of_string s) = String.length s.
Proof.
  induction s as [|c s IH]; simpl; [reflexivity | now rewrite IH].
Qed.

Lemma joined_length (letters : list string) :
  Forall (fun l => String.length l = 1%nat) letters ->
  String.length (String.concat "" letters) = length letters.
Proof.
  induction 1 as [|l ls Hl Hall IH]; [reflexivity |].
  destruct ls as [|l' ls]; [simpl; assumption |].
  change (String.concat "" (l :: l' :: ls))
    with (l ++ "" ++ String.concat "" (l' :: ls))%string.
  rewrite !string_length_append, IH, Hl. reflexivity.
Qed.

Lemma letters_of_returns (st : store) (channels : list Z) :
  forall letters,
    letters_of upper st channels = Returns letters ->
    length letters = length channels /\
    Forall (fun l => String.length l = 1%nat) letters.
Proof.
  induction channels as [|ch rest IH]; intros letters H; simpl in H.
  - injection H as <-. split; [reflexivity | constructor].
  - apply bind_returns in H. destruct H as (l & Hl & H).
    apply bind_returns in H. destruct H as (ls & Hls & H).
    injection H as <-. destruct (IH ls Hls) as [Hlen Hall].
    split; [simpl; now rewrite Hlen |].
    constructor; [| assumption].
    unfold first_letter in Hl. destruct (name (st ch)); [discriminate |].
    injection Hl as <-. apply upper_one.
Qed.

Lemma plan_tiling (st : store) (categories channels : list Z)
      (entries : list plan_entry) :
  plan upper st categories channels = Returns entries ->
  map (fun e => fst (fst e)) entries = categories /\
  concat (map snd entries) = channels.
Proof.
  intros H. unfold plan in H.
  apply bind_returns in H. destruct H as (letters & Hletters & H). cbv zeta in H.
  destruct (letters_of_returns st channels letters Hletters) as [Hlen Hone].
  destruct (letter_frequencies_facts letters) as (Hsum & Hpos & _ & _).
  rewrite length_list_ascii, (joined_length letters Hone), Hlen in Hsum.
  set (counts := map snd (letter_frequencies letters)) in *.
  assert (Hnn : Forall (fun w => 0 <= w) counts).
  { unfold counts. apply Forall_forall. intros w Hw.
    apply in_map_iff in Hw. destruct Hw as (x & <- & Hx).
    rewrite Forall_forall in Hpos. specialize (Hpos x Hx). lia. }
  destruct (balance_categories_weakly counts (Z.of_nat (length categories)))
    as [Hs Hall].
  unfold segments in H.
  destruct (plan_loop_tiles counts letters channels categories Hnn Hsum
              (balance_categories counts (Z.of_nat (length categories)))
              0%nat 0%nat entries)
    as [Hcats Hcon]; [now apply sorted_from_zero | | exact H |].
  { constructor; [lia | assumption]. }
  split.
  - rewrite Hcats. simpl skipn. apply firstn_all2.
    rewrite balance_categories_length. lia.
  - rewrite Hcon, slice_empty, sum_nil, slice_all, Hsum, Nat2Z.id.
    simpl Z.to_nat. apply slice_all.
Qed.

End LettersFacts.

(** X23: when every leading letter uppercases to one character and the
    planning half of [sort] returns, it has saved one list of channels per
    category, in the order of the categories, and these lists, one after the
    other, are the sorted channel list: every channel is planned for exactly
    one place. *)
Theorem plan_tiles (upper : string -> string) (st : store)
        (categories channels : list Z) (entries : list plan_entry) :
  (forall c, String.length (upper (String c EmptyString)) = 1%nat) ->
  plan upper st categories channels = Returns entries ->
  map (fun e => fst (fst e)) entries = categories /\
  concat (map snd entries) = channels.
Proof.
  intros Hupper. exact (plan_tiling upper Hupper st categories channels entries).
Qed.

Lemma plan_tiles_witness :
  exists entries,
    plan (fun s => s) two_categories [100; 200] [1; 3; 2] = Returns entries /\
    map (fun e => fst (fst e)) entries = [100; 200] /\
    concat (map snd entries) = [1; 3; 2].
Proof.
  eexists. split; [reflexivity |].
  apply (plan_tiles (fun s => s) two_categories [100; 200] [1; 3; 2]).
  - reflexivity.
  - reflexivity.
Defined.

Section SortFacts.

Variable upper : string -> string.

Lemma plan_without_channels (st : store) (categories : list Z) :
  plan upper st categories [] = Raises IndexError.
Proof.
  unfold plan. simpl letters_of. simpl bind. cbv zeta.
  change (map snd (letter_frequencies [])) with (@nil Z).
  unfold segments.
  destruct (balance_categories [] (Z.of_nat (length categories))) as [|d D].
  - reflexivity.
  - simpl combine. simpl plan_loop. unfold plan_step. cbv zeta.
    rewrite ?index_empty. reflexivity.
Qed.

Lemma flat_map_empty (f : Z -> list Z) (l : list Z) :
  (forall x, In x l -> f x = []) -> flat_map f l = [].
Proof.
  induction l as [|x l IH]; intros H; simpl; [reflexivity |].
  rewrite (H x) by now left. apply IH. intros y Hy. apply H. now right.
Qed.

Lemma NoDup_app_disjoint (l1 l2 : list Z) (a : Z) :
  NoDup (l1 ++ l2) -> In a l1 -> In a l2 -> False.
Proof.
  induction l1 as [|x l1 IH]; simpl; intros Hnd H1 H2; [contradiction |].
  inversion Hnd as [|? ? Hx Hnd']; subst. destruct H1 as [->|H1].
  - apply Hx. apply in_or_app. now right.
  - now apply IH.
Qed.

Lemma pieces_disjoint (entries : list plan_entry) (e1 e2 : plan_entry) (c : Z) :
  NoDup (concat (map snd entries)) ->
  In e1 entries -> In e2 entries -> In c (snd e1) -> In c (snd e2) -> e1 = e2.
Proof.
  induction entries as [|e entries IH]; simpl; intros Hnd H1 H2 Hc1 Hc2;
    [contradiction |].
  assert (Hrest : forall e', In e' entries -> In c (snd e') ->
                             In c (concat (map snd entries))).
  { intros e' He' Hc'. apply in_concat. exists (snd e'). split; [| assumption].
    now apply in_map. }
  destruct H1 as [->|H1], H2 as [->|H2].
  - reflexivity.
  - exfalso. eapply NoDup_app_disjoint; eauto.
  - exfalso. eapply NoDup_app_disjoint; eauto.
  - apply IH; auto. eapply NoDup_app_remove_l; eauto.
Qed.

Lemma saved_keeps (entries : list plan_entry) (cat : Z) (found : list Z) :
  ~ In cat (map (fun e => fst (fst e)) entries) ->
  fold_left
    (fun found0 '(c, _, channels) => if c =? cat then channels else found0)
    entries found = found.
Proof.
  revert found. induction entries as [|[[c nm] w] entries IH]; intros found H;
    simpl in *; [reflexivity |].
  destruct (Z.eqb_spec c cat) as [->|Hne]; [tauto |].
  apply IH. tauto.
Qed.

Lemma saved_lookup (entries : list plan_entry) (cat : Z) (nm : string)
      (w : list Z) :
  NoDup (map (fun e => fst (fst e)) entries) ->
  In (cat, nm, w) entries -> saved entries cat = w.
Proof.
  unfold saved. generalize (@nil Z) as found.
  induction entries as [|[[c nm0] w0] entries IH]; intros found Hnd Hin;
    simpl in *; [contradiction |].
  inversion Hnd as [|? ? Hc Hnd']; subst.
  destruct Hin as [E|Hin].
  - injection E as -> -> ->. rewrite Z.eqb_refl. now apply saved_keeps.
  - now apply IH.
Qed.

Lemma insert_by_name_permutation (st : store) (c : Z) (l : list Z) :
  Permutation (c :: l) (insert_by_name st c l).
Proof.
  induction l as [|y l IH]; simpl.
  - reflexivity.
  - destruct (String.leb (name (st c)) (name (st y))); [reflexivity |].
    rewrite perm_swap. now apply perm_skip.
Qed.

Lemma sorted_by_name_permutation (st : store) (l : list Z) :
  Permutation l (sorted_by_name st l).
Proof.
  induction l as [|x l IH]; simpl.
  - reflexivity.
  - rewrite <- insert_by_name_permutation. now apply perm_skip.
Qed.

Variable category_channels : store -> Z -> list Z.
Hypothesis upper_one :
  forall c, String.length (upper (String c EmptyString)) = 1%nat.

Lemma sort_command_returns (categories : list Z) (st st' : store) :
  NoDup categories ->
  NoDup (flat_map (category_channels st) categories) ->
  sort_command upper category_channels categories st = Returns st' ->
  exists entries,
    plan upper st categories
         (sorted_by_name st (flat_map (category_channels st) categories))
    = Returns entries /\
    map (fun e => fst (fst e)) entries = categories /\
    concat (map snd entries)
    = sorted_by_name st (flat_map (category_channels st) categories) /\
    (forall cat nm w c,
        In (cat, nm, w) entries -> In c w -> category_id (st' c) = cat) /\
    (forall c, name (st' c) = name (st c)).
Proof.
  intros Hcats Hnd H. unfold sort_command in H. cbv zeta in H.
  apply bind_returns in H. destruct H as (entries & Hplan & Hrun).
  destruct (plan_tiling upper upper_one st categories _ entries Hplan)
    as [Hmap Hcon].
  assert (Hnd' : NoDup (concat (map snd entries))).
  { rewrite Hcon. eapply Permutation_NoDup;
      [apply sorted_by_name_permutation | assumption]. }
  assert (Hkeys : NoDup (map (fun e => fst (fst e)) entries))
    by now rewrite Hmap.
  assert (Hentry : forall cat, In cat categories ->
                               exists nm, In (cat, nm, saved entries cat) entries).
  { intros cat Hcat. rewrite <- Hmap in Hcat. apply in_map_iff in Hcat.
    destruct Hcat as ([[c nm] w] & <- & He). simpl. exists nm.
    now rewrite (saved_lookup entries c nm w Hkeys He). }
  exists entries. repeat split; auto.
  - intros cat nm w c He Hc.
    assert (Hcat : In cat categories).
    { rewrite <- Hmap. apply in_map_iff. now exists (cat, nm, w). }
    destruct (run_categories_categories category_channels
                (sorted_by_name st (flat_map (category_channels st) categories))
                (saved entries) categories) with (st := st) (st' := st')
      as [Hin _]; [| exact Hrun |].
    + intros cat1 cat2 c0 H1 H2 Hc1 Hc2.
      destruct (Hentry cat1 H1) as (n1 & He1).
      destruct (Hentry cat2 H2) as (n2 & He2).
      pose proof (pieces_disjoint entries _ _ c0 Hnd' He1 He2 Hc1 Hc2) as E.
      congruence.
    + apply Hin; [assumption |].
      now rewrite (saved_lookup entries cat nm w Hkeys He).
  - intros c.
    apply (run_categories_invariant category_channels
             (sorted_by_name st (flat_map (category_channels st) categories))
             (fun s => forall c, name (s c) = name (st c))
             (saved entries) categories) with (st := st); [| auto | exact Hrun].
    intros category i c0 s s' _ _ Hn Hstep c1.
    rewrite (shuffle_step_names _ _ _ _ _ _ _ Hstep c1). apply Hn.
Qed.

End SortFacts.

(** X24: [sort] raises [IndexError] when the project categories hold no
    channel, in particular when there is no project category: the planning
    half reads [letters[0]] from an empty list. *)
Theorem sort_without_channels
        (upper : string -> string) (category_channels : store -> Z -> list Z)
        (categories : list Z) (st : store) :
  (forall cat, In cat categories -> category_channels st cat = []) ->
  sort_command upper category_channels categories st = Raises IndexError.
Proof.
  intros H. unfold sort_command. cbv zeta.
  rewrite (flat_map_empty _ _ H). simpl sorted_by_name.
  now rewrite plan_without_channels.
Qed.

Lemma sort_without_channels_witness :
  sort_command (fun s => s) (channels_of [1; 2; 3]) [300; 400] two_categories
  = Raises IndexError.
Proof.
  apply (sort_without_channels (fun s => s) (channels_of [1; 2; 3]) [300; 400]).
  intros cat [<-|[<-|[]]]; reflexivity.
Defined.

(** X25: when every leading letter uppercases to one character, the project
    categories are distinct and hold each channel once, and [sort] returns,
    then the sorted channel list has been cut into one run per category, in
    the order of the categories, every channel is in the category of its
    run, and no channel has been renamed. *)
Theorem sort_sorts
        (upper : string -> string) (category_channels : store -> Z -> list Z)
        (categories : list Z) (st st' : store) :
  (forall c, String.length (upper (String c EmptyString)) = 1%nat) ->
  NoDup categories ->
  NoDup (flat_map (category_channels st) categories) ->
  sort_command upper category_channels categories st = Returns st' ->
  exists entries,
    plan upper st categories
         (sorted_by_name st (flat_map (category_channels st) categories))
    = Returns entries /\
    map (fun e => fst (fst e)) entries = categories /\
    concat (map snd entries)
    = sorted_by_name st (flat_map (category_channels st) categories) /\
    (forall cat nm w c,
        In (cat, nm, w) entries -> In c w -> category_id (st' c) = cat) /\
    (forall c, name (st' c) = name (st c)).
Proof.
  intros Hupper.
  exact (sort_command_returns upper category_channels Hupper categories st st').
Qed.

Lemma sort_sorts_witness :
  exists st' entries,
    sort_command (fun s => s) (channels_of [1; 2; 3]) [100; 200] two_categories
    = Returns st' /\
    plan (fun s => s) two_categories [100; 200]
         (sorted_by_name two_categories
            (flat_map (channels_of [1; 2; 3] two_categories) [100; 200]))
    = Returns entries /\
    map (fun e => fst (fst e)) entries = [100; 200] /\
    concat (map snd entries)
    = sorted_by_name two_categories
        (flat_map (channels_of [1; 2; 3] two_categories) [100; 200]) /\
    (forall cat nm w c,
        In (cat, nm, w) entries -> In c w -> category_id (st' c) = cat) /\
    (forall c, name (st' c) = name (two_categories c)).
Proof.
  destruct (sort_command (fun s => s) (channels_of [1; 2; 3]) [100; 200]
                         two_categories) as [st'|e] eqn:H;
    [| vm_compute in H; discriminate H].
  assert (Hc : NoDup [100; 200])
    by (repeat constructor; simpl; intros F; intuition discriminate).
  assert (Hn : NoDup (flat_map (channels_of [1; 2; 3] two_categories) [100; 200]))
    by (repeat constructor; simpl; intros F; intuition discriminate).
  destruct (sort_sorts (fun s => s) (channels_of [1; 2; 3]) [100; 200]
              two_categories st' (fun c => eq_refl) Hc Hn H)
    as (entries & H1 & H2 & H3 & H4 & H5).
  exists st', entries. repeat split; assumption.
Defined.

Section PlanSucceeds.

Variable counts : list Z.
Variable letters : list string.
Variable channels categories : list Z.
Hypothesis counts_positive : Forall (fun w => 0 < w) counts.
Hypothesis counts_total : sum counts = Z.of_nat (length channels).
Hypothesis letters_length : length letters = length channels.

Lemma plan_step_succeeds (k i j : nat) :
  (i < j <= length counts)%nat -> (k < length categories)%nat ->
  exists e,
    plan_step counts letters channels categories k i j = Returns e /\
    snd e <> [].
Proof.
  intros Hij Hk.
  pose proof (positive_nonneg counts counts_positive) as Hnn.
  pose proof (prefix_step counts i j ltac:(lia)) as Hstep.
  pose proof (slice_positive counts counts_positive i j ltac:(lia) ltac:(lia))
    as Hpos.
  pose proof (prefix_nonneg counts Hnn i) as Hi0.
  pose proof (prefix_monotone counts Hnn j (length counts) ltac:(lia)) as Hjn.
  pose proof (prefix_total counts) as Htot.
  unfold plan_step. cbv zeta. rewrite Hstep.
  destruct (index_in_range letters (sum (slice counts 0 i))) as [l1 ->];
    [lia |].
  destruct (index_in_range letters (sum (slice counts 0 j) - 1)) as [l2 ->];
    [lia |].
  destruct (index_in_range categories (Z.of_nat k)) as [cat ->]; [lia |].
  destruct (index_in_range channels (sum (slice counts 0 i))) as [c1 ->];
    [lia |].
  destruct (index_in_range channels (sum (slice counts 0 j) - 1)) as [c2 ->];
    [lia |].
  simpl. eexists. split; [reflexivity |]. simpl.
  rewrite list_slice_slice by lia.
  intros E. apply (f_equal (@length Z)) in E.
  rewrite slice_gen_length in E. simpl in E. lia.
Qed.

Lemma plan_loop_succeeds (D : list nat) :
  forall s k,
    (s < length counts)%nat -> chain (S s) D (length counts) ->
    (k + S (length D) <= length categories)%nat ->
    exists entries,
      plan_loop counts letters channels categories k
                (combine (s :: D) (D ++ [length counts])) = Returns entries /\
      Forall (fun e => snd e <> []) entries.
Proof.
  induction D as [|d D IH]; intros s k Hs Hch Hk.
  - simpl combine. simpl plan_loop.
    destruct (plan_step_succeeds k s (length counts)) as (e & -> & He);
      [lia | simpl in Hk; lia |].
    simpl. eexists. split; [reflexivity |]. now constructor.
  - destruct Hch as [Hd Hch]. simpl in Hk.
    change (combine (s :: d :: D) ((d :: D) ++ [length counts]))
      with ((s, d) :: combine (d :: D) (D ++ [length counts])).
    cbn [plan_loop].
    destruct (plan_step_succeeds k s d) as (e & -> & He); [lia | lia |].
    destruct (IH d (S k)) as (es & Hes & Hall); [lia | assumption | lia |].
    cbn [bind]. rewrite Hes. cbn [bind].
    eexists. split; [reflexivity |]. now constructor.
Qed.

End PlanSucceeds.

Lemma plan_returns (upper : string -> string) (st : store)
      (categories channels : list Z) (letters : list string) :
  (forall c, String.length (upper (String c EmptyString)) = 1%nat) ->
  letters_of upper st channels = Returns letters ->
  (1 <= length categories <= length (letter_frequencies letters))%nat ->
  Z.of_nat (length channels) ^ 2 < maxsize ->
  exists entries,
    plan upper st categories channels = Returns entries /\
    Forall (fun e => snd e <> []) entries.
Proof.
  intros Hupper Hletters Hcats Hsmall. unfold plan. rewrite Hletters.
  simpl bind. cbv zeta.
  destruct (letters_of_returns upper Hupper st channels letters Hletters)
    as [Hlen Hone].
  destruct (letter_frequencies_facts letters) as (Hsum & Hpos & _ & _).
  rewrite length_list_ascii, (joined_length letters Hone), Hlen in Hsum.
  rewrite <- (length_map snd) in Hcats.
  set (counts := map snd (letter_frequencies letters)) in *.
  assert (Hpositive : Forall (fun w => 0 < w) counts).
  { unfold counts. apply Forall_forall. intros w Hw.
    apply in_map_iff in Hw. destruct Hw as (x & <- & Hx).
    rewrite Forall_forall in Hpos. specialize (Hpos x Hx). lia. }
  pose proof (positive_nonneg counts Hpositive) as Hnn.
  destruct (balance_categories_small counts (Z.of_nat (length categories)) Hnn)
    as [Hr Hmin]; [lia | rewrite Hsum; assumption |].
  assert (Hch : chain 1 (balance_categories counts (Z.of_nat (length categories)))
                      (length counts)).
  { apply (least_cost_starts_late counts Hpositive (Z.of_nat (length categories)));
      [lia | assumption |].
    intros B HB. apply Hmin. now apply visited_boundary. }
  unfold segments. apply plan_loop_succeeds; try assumption.
  - lia.
  - rewrite balance_categories_length. lia.
Qed.

(** X26: when every channel name is non-empty and its leading letter
    uppercases to one character, there are at least one and at most as many
    categories as distinct letters, and the number of channels squared is
    below [sys.maxsize], the planning half of [sort] returns, and it saves a
    non-empty list of channels for every category. *)
Theorem plan_succeeds (upper : string -> string) (st : store)
        (categories channels : list Z) (letters : list string) :
  (forall c, String.length (upper (String c EmptyString)) = 1%nat) ->
  letters_of upper st channels = Returns letters ->
  (1 <= length categories <= length (letter_frequencies letters))%nat ->
  Z.of_nat (length channels) ^ 2 < maxsize ->
  exists entries,
    plan upper st categories channels = Returns entries /\
    Forall (fun e => snd e <> []) entries.
Proof.
  exact (plan_returns upper st categories channels letters).
Qed.

Lemma plan_succeeds_witness :
  exists entries,
    plan (fun s => s) two_categories [100; 200] [1; 3; 2] = Returns entries /\
    Forall (fun e => snd e <> []) entries.
Proof.
  apply (plan_succeeds (fun s => s) two_categories [100; 200] [1; 3; 2]
           ["a"; "m"; "z"]%string).
  - reflexivity.
  - reflexivity.
  - simpl. lia.
  - reflexivity.
Defined.
